(** * A model of buraksezer/consistent: consistent hashing with bounded loads

    Shallow embedding of the Go package [consistent] (file consistent.go).
    - A Go [uint64] or [int] is a [Z]; conversions write out the wrap-around.
    - Go maps are stdpp [gmap]s; a Go slice of hashes is a [list Z].
    - A Go panic is a value of [Panic]. A method that mutates the receiver
      returns the receiver as it stands when the method returns or panics
      (the receiver is a pointer: mutations done before a panic persist),
      together with [Some p] when it panicked.
    - A Go [float64] is a value of type [float64]: a finite value, kept as
      an exact rational, or an infinity. [round64] is the IEEE 754 binary64
      rounding of an exact result (to nearest, ties to even, with subnormals
      and overflow to an infinity); [round_int] is [float64(n)] for an
      integer [n]. The loads are [float64] integers, kept as [Z]; the
      configured [LoadFactor] is a [Q] holding the [float64] value.
    - [sort.Slice] is a parameter [sortSlice] of the section below: Go
      leaves the order of equal elements unspecified, so only its contract
      (a sorted permutation of its input) is assumed where a proof needs it. *)

From Stdlib Require Import ZArith QArith Qround String Strings.Byte.
From stdpp Require Import base gmap strings list sorting.

Open Scope Z_scope.

(** ** Go values *)

(** Go's [int(x)] of a [uint64] (two's complement, 64 bits). *)
Definition to_int (z : Z) : Z :=
  let u := z mod 2 ^ 64 in if u <? 2 ^ 63 then u else u - 2 ^ 64.

(** Go's [uint64(x)] of an [int]. *)
Definition to_uint64 (z : Z) : Z := z mod 2 ^ 64.

(** [Member] interface: a member is known through its [Name()]. *)
Record Member := mkMember { Name : string }.

(** [Hasher] interface: [Sum64([]byte) uint64]. *)
Definition Hasher := list byte -> Z.

Record Config := mkConfig {
  cfgHasher : option Hasher;       (* Hasher (nil = None) *)
  PartitionCount : Z;              (* int *)
  ReplicationFactor : Z;           (* int *)
  LoadFactor : Q                   (* float64 *)
}.

Record Consistent := mkConsistent {
  config : Config;
  hasher : Hasher;
  sortedSet : list Z;
  partitionCount : Z;
  loads : gmap string Z;
  members : gmap string Member;
  partitions : gmap Z Member;
  ring : gmap Z Member
}.

(** Runtime panics of the Go code. *)
Inductive Panic :=
  | HasherCannotBeNil                 (* panic("Hasher cannot be nil") *)
  | NotEnoughRoom                     (* panic("not enough room to distribute partitions") *)
  | IntegerDivideByZero               (* runtime error: integer divide by zero *)
  | IndexOutOfRange                   (* runtime error: index out of range *)
  | NilPointerDereference.            (* runtime error: nil pointer dereference *)

(** Errors returned as values. *)
Inductive Error := ErrInsufficientMemberCount | ErrMemberNotFound.

(** ** IEEE 754 binary64 *)

(** A [float64] value; NaN never arises in this code. *)
Inductive float64 := Finite (x : Q) | Infinity (negative : bool).

(** [a / b] rounded to the nearest integer, ties to even ([0 < b]). *)
Definition div_near_even (a b : Z) : Z :=
  let q := a / b in
  match Z.compare (2 * (a mod b)) b with
  | Lt => q
  | Gt => q + 1
  | Eq => if Z.even q then q else q + 1
  end.

(** [float64(z)] of an integer: [z] rounded to a 53-bit significand. *)
Definition round_int (z : Z) : Z :=
  let a := Z.abs z in
  let s := Z.max 0 (Z.log2 a - 52) in
  Z.sgn z * (div_near_even a (2 ^ s) * 2 ^ s).

(** [b * 2^e <= a], for an exponent of either sign. *)
Definition pow2_le (e a b : Z) : bool :=
  if 0 <=? e then b * 2 ^ e <=? a else b <=? a * 2 ^ (- e).

Definition pow2Q (e : Z) : Q :=
  if 0 <=? e then inject_Z (2 ^ e) else 1 # Z.to_pos (2 ^ (- e)).

(** The binary64 value nearest to an exact result [x] (ties to even): with
    [2^e <= |x| < 2^(e+1)], [|x|] is rounded to a multiple of [2^s], where
    [s = max (e - 52) (-1074)] (53 significant bits, subnormals below
    [2^-1022]); a result of at least [2^1024] overflows to an infinity. *)
Definition round64 (x : Q) : float64 :=
  let neg := Qnum x <? 0 in
  let a := Z.abs (Qnum x) in
  let b := Zpos (Qden x) in
  let e0 := Z.log2 a - Z.log2 b in
  let e := if pow2_le e0 a b then e0 else e0 - 1 in
  let s := Z.max (e - 52) (-1074) in
  let m := if 0 <=? s then div_near_even a (b * 2 ^ s) else div_near_even (a * 2 ^ (- s)) b in
  let v := (inject_Z m * pow2Q s)%Q in
  if Qle_bool (inject_Z (2 ^ 1024)) v then Infinity neg
  else Finite (if neg then Qopp v else v).

(** [math.Ceil] *)
Definition f64_ceil (f : float64) : float64 :=
  match f with Finite x => Finite (inject_Z (Qceiling x)) | Infinity n => Infinity n end.

(** [float64(z) <= f] for a [z] that is already a [float64] value. *)
Definition Zle_f64 (z : Z) (f : float64) : bool :=
  match f with Finite x => Qle_bool (inject_Z z) x | Infinity neg => negb neg end.

(** ** Byte encodings *)

Definition byte_of_Z (z : Z) : byte :=
  match Byte.of_N (Z.to_N (z mod 256)) with Some b => b | None => x00 end.

(** [binary.LittleEndian.PutUint64(bs, v)] *)
Definition PutUint64 (v : Z) : list byte :=
  map (fun k => byte_of_Z (Z.shiftr v (8 * k))) [0; 1; 2; 3; 4; 5; 6; 7].

Fixpoint decimal_aux (fuel n : nat) (acc : list byte) : list byte :=
  match fuel with
  | O => acc
  | S fuel' =>
      let acc' := byte_of_Z (48 + Z.of_nat (n mod 10)) :: acc in
      if (n <? 10)%nat then acc' else decimal_aux fuel' (n / 10)%nat acc'
  end.

(** The bytes of [fmt.Sprintf("%d", i)] for [i >= 0]. *)
Definition decimal (n : nat) : list byte := decimal_aux (S n) n [].

(** [[]byte(fmt.Sprintf("%s%d", name, i))] *)
Definition replicaKey (name : string) (i : nat) : list byte :=
  list_byte_of_string name ++ decimal i.

(** ** Record updates *)

Definition set_ring_members (c : Consistent) (ss : list Z) (rg : gmap Z Member)
    (ms : gmap string Member) : Consistent :=
  mkConsistent (config c) (hasher c) ss (partitionCount c) (loads c) ms
    (partitions c) rg.

Definition set_partitions (c : Consistent) (parts : gmap Z Member) : Consistent :=
  mkConsistent (config c) (hasher c) (sortedSet c) (partitionCount c) (loads c)
    (members c) parts (ring c).

Definition set_table (c : Consistent) (parts : gmap Z Member)
    (lds : gmap string Z) : Consistent :=
  mkConsistent (config c) (hasher c) (sortedSet c) (partitionCount c) lds
    (members c) parts (ring c).

(** The loop of [sort.Search(n, f)]:
    [for i < j { h := int(uint(i+j) >> 1); if !f(h) { i = h + 1 } else { j = h } }; return i],
    here with [f(h) = s[h] >= key]. [fuel] bounds the iterations ([j - i]
    drops at each one); [s[h]] is always in range, as [h < j <= len(s)]. *)
Fixpoint search_loop (s : list Z) (key : Z) (fuel i j : nat) : nat :=
  match fuel with
  | O => i
  | S fuel' =>
      if (i <? j)%nat then
        let h := Nat.div2 (i + j) in
        match s !! h with
        | None => i
        | Some x =>
            if key <=? x then search_loop s key fuel' i h
            else search_loop s key fuel' (S h) j
        end
      else i
  end.

(** [sort.Search(len(s), func(i int) bool { return s[i] >= key })] *)
Definition search (s : list Z) (key : Z) : nat :=
  search_loop s key (S (length s)) 0 (length s).

(** [delSlice]: after removing [s[i]] the loop still increments [i], so
    the element that moved into position [i] is not examined. *)
Fixpoint delSlice (val : Z) (s : list Z) : list Z :=
  match s with
  | [] => []
  | x :: s' =>
      if x =? val then
        match s' with
        | [] => []
        | y :: s'' => y :: delSlice val s''
        end
      else x :: delSlice val s'
  end.

Section Consistent.

(** Go's [sort.Slice] with the comparator [s[i] < s[j]] on [[]uint64]. *)
Variable sortSlice : list Z -> list Z.

(** [AverageLoad]: [math.Ceil(float64(c.partitionCount / uint64(len(c.members))) * c.config.LoadFactor)];
    the division is on integers, the product is rounded to a [float64]. *)
Definition AverageLoad (c : Consistent) : Panic + float64 :=
  let n := Z.of_nat (size (members c)) in
  if decide (n = 0) then inl IntegerDivideByZero
  else inr (f64_ceil (round64 (inject_Z (round_int (partitionCount c / n))
                               * LoadFactor (config c)))).

(** The [for] loop of [distributeWithLoad]; [fuel] is [len(c.sortedSet)],
    which the [count] check never lets the loop exceed. *)
Fixpoint walk (c : Consistent) (avgLoad : float64) (partID : Z) (fuel count idx : nat)
    (parts : gmap Z Member) (lds : gmap string Z)
    : Panic + (gmap Z Member * gmap string Z) :=
  match fuel with
  | O => inl NotEnoughRoom
  | S fuel' =>
      let count := S count in
      if (length (sortedSet c) <=? count)%nat then inl NotEnoughRoom else
      match sortedSet c !! idx with
      | None => inl IndexOutOfRange
      | Some i =>
          match ring c !! i with
          | None => inl NilPointerDereference
          | Some member =>
              let load := default 0 (lds !! Name member) in
              (* [load+1] and [loads[member.Name()]++] are [float64] additions *)
              if Zle_f64 (round_int (load + 1)) avgLoad then
                inr (<[partID := member]> parts, <[Name member := round_int (load + 1)]> lds)
              else
                let idx := S idx in
                let idx := if (length (sortedSet c) <=? idx)%nat then O else idx in
                walk c avgLoad partID fuel' count idx parts lds
          end
      end
  end.

Definition distributeWithLoad (c : Consistent) (partID : Z) (idx : nat)
    (parts : gmap Z Member) (lds : gmap string Z)
    : Panic + (gmap Z Member * gmap string Z) :=
  match AverageLoad c with
  | inl p => inl p
  | inr avgLoad => walk c avgLoad partID (length (sortedSet c)) 0 idx parts lds
  end.

(** The [for partID] loop of [distributePartitions]. *)
Fixpoint distributeFrom (c : Consistent) (ids : list Z)
    (parts : gmap Z Member) (lds : gmap string Z)
    : Panic + (gmap Z Member * gmap string Z) :=
  match ids with
  | [] => inr (parts, lds)
  | partID :: ids' =>
      let key := hasher c (PutUint64 partID) in
      let idx := search (sortedSet c) key in
      let idx := if (length (sortedSet c) <=? idx)%nat then O else idx in
      match distributeWithLoad c (to_int partID) idx parts lds with
      | inl p => inl p
      | inr (parts', lds') => distributeFrom c ids' parts' lds'
      end
  end.

Definition partitionIDs (c : Consistent) : list Z :=
  map Z.of_nat (seq 0 (Z.to_nat (partitionCount c))).

(** [distributePartitions]: build fresh maps, install them at the end. *)
Definition distributePartitions (c : Consistent) : Consistent * option Panic :=
  match distributeFrom c (partitionIDs c) ∅ ∅ with
  | inl p => (c, Some p)
  | inr (parts, lds) => (set_table c parts lds, None)
  end.

Definition replicas (c : Consistent) : list nat :=
  seq 0 (Z.to_nat (ReplicationFactor (config c))).

(** [add] (lower case): ring points, re-sort, member registry. *)
Definition add (c : Consistent) (member : Member) : Consistent :=
  let '(rg, ss) :=
    fold_left (fun '(rg, ss) i =>
                 let h := hasher c (replicaKey (Name member) i) in
                 (<[h := member]> rg, ss ++ [h]))
              (replicas c) (ring c, sortedSet c) in
  set_ring_members c (sortSlice ss) rg (<[Name member := member]> (members c)).

(** [Add] *)
Definition Add (c : Consistent) (member : Member) : Consistent * option Panic :=
  match members c !! Name member with
  | Some _ => (c, None)
  | None => distributePartitions (add c member)
  end.

(** [Remove] *)
Definition Remove (c : Consistent) (name : string) : Consistent * option Panic :=
  match members c !! name with
  | None => (c, None)
  | Some _ =>
      let '(rg, ss) :=
        fold_left (fun '(rg, ss) i =>
                     let h := hasher c (replicaKey name i) in
                     (delete h rg, delSlice h ss))
                  (replicas c) (ring c, sortedSet c) in
      let c1 := set_ring_members c ss rg (delete name (members c)) in
      if decide (size (members c1) = 0%nat) then (set_partitions c1 ∅, None)
      else distributePartitions c1
  end.

(** [New]: a nil member slice is [None]. *)
Definition New (ms : option (list Member)) (cfg : Config) : Panic + Consistent :=
  match cfgHasher cfg with
  | None => inl HasherCannotBeNil
  | Some h =>
      let c0 := mkConsistent cfg h [] (to_uint64 (PartitionCount cfg)) ∅ ∅ ∅ ∅ in
      let c1 := fold_left add (default [] ms) c0 in
      match ms with
      | None => inr c1
      | Some _ =>
          match distributePartitions c1 with
          | (c2, None) => inr c2
          | (_, Some p) => inl p
          end
      end
  end.

(** [FindPartitionID]: [int(hkey % c.partitionCount)]. *)
Definition FindPartitionID (c : Consistent) (key : list byte) : Panic + Z :=
  let hkey := hasher c key in
  if decide (partitionCount c = 0) then inl IntegerDivideByZero
  else inr (to_int (hkey mod partitionCount c)).

(** [GetPartitionOwner]: [None] is the nil [Member]. *)
Definition GetPartitionOwner (c : Consistent) (partID : Z) : option Member :=
  partitions c !! partID.

(** [LocateKey] *)
Definition LocateKey (c : Consistent) (key : list byte) : Panic + option Member :=
  match FindPartitionID c key with
  | inl p => inl p
  | inr partID => inr (GetPartitionOwner c partID)
  end.

(** One iteration of the [for name, member := range c.members] loop of
    [GetPartitionBackups], which computes [ownerKey], [keys] and [kmems];
    [owner.Name()] on a nil owner panics in the first iteration. *)
Definition scan_step (c : Consistent) (owner : option Member)
    (acc : Panic + (Z * list Z * gmap Z Member)) (nm : string * Member)
    : Panic + (Z * list Z * gmap Z Member) :=
  match acc, owner with
  | inl p, _ => inl p
  | inr _, None => inl NilPointerDereference
  | inr (ownerKey, keys, kmems), Some o =>
      let key := hasher c (list_byte_of_string nm.1) in
      let ownerKey := if String.eqb nm.1 (Name o) then key else ownerKey in
      inr (ownerKey, keys ++ [key], <[key := nm.2]> kmems)
  end.

(** The whole loop. Go visits the map in an unspecified order;
    [map_to_list] fixes one. *)
Definition scanMembers (c : Consistent) (owner : option Member)
    : Panic + (Z * list Z * gmap Z Member) :=
  fold_left (scan_step c owner) (map_to_list (members c)) (inr (0, [], ∅)).

(** [for idx < len(keys) { if keys[idx] == ownerKey { break }; idx++ }] *)
Fixpoint findOwner (keys : list Z) (ownerKey : Z) : nat :=
  match keys with
  | [] => O
  | k :: keys' => if k =? ownerKey then O else S (findOwner keys' ownerKey)
  end.

(** [for len(res) < backupCount { idx++; wrap; res = append(res, *kmems[keys[idx]]) }],
    [k] being the number of iterations left. *)
Fixpoint collectBackups (keys : list Z) (kmems : gmap Z Member) (k idx : nat)
    : Panic + list Member :=
  match k with
  | O => inr []
  | S k' =>
      let idx := S idx in
      let idx := if (length keys <=? idx)%nat then O else idx in
      match keys !! idx with
      | None => inl IndexOutOfRange
      | Some key =>
          match kmems !! key with
          | None => inl NilPointerDereference
          | Some m =>
              match collectBackups keys kmems k' idx with
              | inl p => inl p
              | inr rest => inr (m :: rest)
              end
          end
      end
  end.

(** [GetPartitionBackups] *)
Definition GetPartitionBackups (c : Consistent) (partID backupCount : Z)
    : Panic + (list Member * option Error) :=
  if backupCount >? Z.of_nat (size (members c)) - 1 then
    inr ([], Some ErrInsufficientMemberCount)
  else
    match scanMembers c (GetPartitionOwner c partID) with
    | inl p => inl p
    | inr (ownerKey, keys, kmems) =>
        let keys := sortSlice keys in
        let idx := findOwner keys ownerKey in
        match collectBackups keys kmems (Z.to_nat backupCount) idx with
        | inl p => inl p
        | inr res => inr (res, None)
        end
    end.

(** [GetMembers]: a copy of the registered members, in map order. *)
Definition GetMembers (c : Consistent) : list Member :=
  fold_left (fun res (nm : string * Member) => res ++ [nm.2]) (map_to_list (members c)) [].

(** [LoadDistribution]: a copy of the load map. *)
Definition LoadDistribution (c : Consistent) : gmap string Z :=
  fold_left (fun res (nl : string * Z) => <[nl.1 := nl.2]> res) (map_to_list (loads c)) ∅.

(** A caller's sequence of mutations, stopping at the first panic. *)
Inductive Op := OpAdd (m : Member) | OpRemove (name : string).

Definition step (c : Consistent) (op : Op) : Consistent * option Panic :=
  match op with
  | OpAdd m => Add c m
  | OpRemove name => Remove c name
  end.

Fixpoint run (c : Consistent) (ops : list Op) : Consistent * option Panic :=
  match ops with
  | [] => (c, None)
  | op :: ops' =>
      match step c op with
      | (c', None) => run c' ops'
      | (c', Some p) => (c', Some p)
      end
  end.

End Consistent.

(** ** A concrete sort and hasher, for evaluation *)

(** A [sort.Slice] instance: stdpp's merge sort on [Z.le]. *)
Definition zsort : list Z -> list Z := merge_sort Z.le.

(** An FNV-1 style 64-bit hasher. *)
Definition fnv64 : Hasher :=
  fun bs => fold_left (fun h b => (h * 1099511628211 + Z.of_N (Byte.to_N b)) mod 2 ^ 64)
                      bs 14695981039346656037.

(** ** Bookkeeping used in the statements *)

(** The number of partitions the table maps to a member named [n]. *)
Definition owned_count (n : string) (parts : gmap Z Member) : nat :=
  size (filter (fun kv : Z * Member => Name kv.2 = n) parts).

(** The sum of the loads recorded in a load map. *)
Definition total_load (lds : gmap string Z) : Z :=
  map_fold (fun _ v acc => v + acc) 0 lds.

(** The load cap as the spec writes it, with a real division [P / memberCount]. *)
Definition real_cap (c : Consistent) : Z :=
  Qceiling (inject_Z (partitionCount c) / inject_Z (Z.of_nat (size (members c)))
            * LoadFactor (config c)).

(** What a distribution pass maintains for the maps it builds: a [float64]
    load counts the member's partitions exactly up to [2^53], where adding
    one stops changing it. *)
Definition pass_inv (avg : float64) (parts : gmap Z Member) (lds : gmap string Z) : Prop :=
  (forall n l, lds !! n = Some l ->
     1 <= l /\ Zle_f64 l avg = true /\
     l = Z.min (Z.of_nat (owned_count n parts)) (2 ^ 53)) /\
  (forall n, lds !! n = None -> owned_count n parts = 0%nat) /\
  (Z.of_nat (size parts) <= 2 ^ 53 -> total_load lds = Z.of_nat (size parts)).

(** The installed load map and table respect the cap of the member count
    the instance has. *)
Definition capped (c : Consistent) : Prop :=
  exists avg, AverageLoad c = inr avg /\
    forall n l, loads c !! n = Some l ->
      Zle_f64 l avg = true /\ l <= real_cap c /\ Z.of_nat (owned_count n (partitions c)) = l.

(** What every instance reached without a panic satisfies: [partitionCount]
    is a [uint64], and a non-empty instance holds the table and load map that
    a distribution pass over its current ring builds. *)
Definition reach_inv (c : Consistent) : Prop :=
  0 <= partitionCount c < 2 ^ 64 /\
  (size (members c) <> 0%nat -> distributePartitions c = (c, None)).

(** ** Concrete configurations used by the examples below *)

Definition mA : Member := mkMember "A".
Definition mB : Member := mkMember "B".
Definition mC : Member := mkMember "C".
Definition mD : Member := mkMember "D".

(** The spec's scenario: [P = 7], [R = 3], [F = 1.25]. *)
Definition cfgABC : Config := mkConfig (Some fnv64) 7 3 (5 # 4).

(** [P = 5], [R = 3], [F = 1.5]: two members get a cap of [ceil(2 * 1.5) = 3]. *)
Definition cfgAB : Config := mkConfig (Some fnv64) 5 3 (3 # 2).

(** [P = 2], [R = 4], [F = 0.5]: one member gets a cap of one partition. *)
Definition cfgTight : Config := mkConfig (Some fnv64) 2 4 (1 # 2).

(** [P = 1], [R = 1], [F = 1]: one ring point per member. *)
Definition cfgOnePoint : Config := mkConfig (Some fnv64) 1 1 1.

(** [P = 10], [R = 2], [F] the [float64] nearest to [1.1], which is
    [2476979795053773 / 2^51]. *)
Definition cfgFloat : Config := mkConfig (Some fnv64) 10 2 (2476979795053773 # 2251799813685248).

(** [P = 2^55], [R = 2], [F = 0.5]: one member gets a cap of [2^54]. *)
Definition cfgHuge : Config := mkConfig (Some fnv64) (2 ^ 55) 2 (1 # 2).

(** [P = 0]. *)
Definition cfgNoPartitions : Config := mkConfig (Some fnv64) 0 3 1.

(** The instance [New] returns, [dflt] when it panics. *)
Definition new_or (dflt : Consistent) (r : Panic + Consistent) : Consistent :=
  match r with inr c => c | inl _ => dflt end.

Definition blank (cfg : Config) : Consistent := mkConsistent cfg fnv64 [] 0 ∅ ∅ ∅ ∅.

(** The contract of Go's [sort.Slice] with an ascending comparator. *)
Definition sorts (sortSlice : list Z -> list Z) : Prop :=
  forall l, sortSlice l ≡ₚ l /\ Sorted Z.le (sortSlice l).

(** Index arithmetic of the backup loop: [idx++] with wrap-around, the
    sequence of indices it visits, and their closed form. *)
Definition next_idx (len idx : nat) : nat :=
  if (len <=? S idx)%nat then O else S idx.

Fixpoint positions (len k idx : nat) : list nat :=
  match k with
  | O => []
  | S k' => next_idx len idx :: positions len k' (next_idx len idx)
  end.

Definition posn (len idx j : nat) : nat :=
  if (idx + 1 + j <? len)%nat then (idx + 1 + j)%nat else (idx + 1 + j - len)%nat.

(** The member [*kmems[keys[p]]] read at index [p]. *)
Definition pick (keys : list Z) (kmems : gmap Z Member) (p : nat) : Member :=
  match keys !! p with
  | Some key => match kmems !! key with Some m => m | None => mkMember "" end
  | None => mkMember ""
  end.

(** The hasher is injective on the member names: their hashes are
    pairwise distinct. *)
Definition member_hashes_distinct (c : Consistent) : Prop :=
  NoDup (map (fun nm : string * Member => hasher c (list_byte_of_string nm.1))
             (map_to_list (members c))).

(** [binary.LittleEndian.Uint64], the decoder matching [PutUint64]. *)
Definition Uint64 (bs : list byte) : Z :=
  fold_right (fun b acc => Z.of_N (Byte.to_N b) + 256 * acc) 0 bs.

(** The value of a string of decimal digits, as [strconv.Atoi] reads it. *)
Definition digits_value (bs : list byte) : Z :=
  fold_left (fun acc b => acc * 10 + (Z.of_N (Byte.to_N b) - 48)) bs 0.

(** What instances built by [New] and mutated by [Add]/[Remove] keep: each
    member is registered under its own name; each ring point belongs to a
    registered member and is the hash of one of its replica keys; each
    partition owner is a registered member. *)
Definition ring_inv (c : Consistent) : Prop :=
  map_Forall (fun name m => Name m = name) (members c) /\
  map_Forall (fun h m => members c !! Name m = Some m /\
    exists i, (i < Z.to_nat (ReplicationFactor (config c)))%nat /\
      h = hasher c (replicaKey (Name m) i)) (ring c).

Definition owners_inv (c : Consistent) : Prop :=
  map_Forall (fun _ m => members c !! Name m = Some m) (partitions c).

(** An instance a caller can hold: [New] returned it, then any sequence of
    [Add]/[Remove] calls returned without a panic. *)
Definition reachable (sortSlice : list Z -> list Z) (c : Consistent) : Prop :=
  exists ms cfg c0 ops,
    New sortSlice ms cfg = inr c0 /\ run sortSlice c0 ops = (c, None).

(** * Proofs *)

(** ** Arithmetic of the Go conversions *)

Lemma to_int_inj a b :
  0 <= a < 2 ^ 64 -> 0 <= b < 2 ^ 64 -> to_int a = to_int b -> a = b.
Proof.
  unfold to_int. intros Ha Hb.
  rewrite !Z.mod_small by lia.
  destruct (Z.ltb_spec a (2 ^ 63)), (Z.ltb_spec b (2 ^ 63)); lia.
Qed.

(** ** Rounding to binary64 *)

Lemma div_near_even_spec a b :
  0 < b ->
  a / b <= div_near_even a b <= a / b + 1 /\
  (div_near_even a b = a / b + 1 -> b <= 2 * (a mod b)) /\
  (div_near_even a b = a / b -> 2 * (a mod b) <= b).
Proof.
  intros Hb. unfold div_near_even.
  destruct (Z.compare_spec (2 * (a mod b)) b); [destruct (Z.even (a / b))| |]; lia.
Qed.

Lemma div_near_even_exact k b : 0 < b -> div_near_even (k * b) b = k.
Proof.
  intros Hb. unfold div_near_even. rewrite Z.div_mul, Z.mod_mul by lia.
  destruct (Z.compare_spec (2 * 0) b); lia.
Qed.

Lemma div_near_even_le a b K : 0 < b -> a <= K * b -> div_near_even a b <= K.
Proof.
  intros Hb Ha. pose proof (div_near_even_spec a b Hb) as (H1 & H2 & _).
  pose proof (Z.div_mod a b ltac:(lia)). pose proof (Z.mod_pos_bound a b Hb).
  assert (a / b <= K) by (apply Z.div_le_upper_bound; lia).
  destruct (Z.eq_dec (a / b) K) as [E|E]; [|lia].
  destruct (Z.eq_dec (div_near_even a b) (a / b + 1)) as [E2|E2]; [|lia].
  specialize (H2 E2). nia.
Qed.

Lemma div_near_even_nonneg a b : 0 <= a -> 0 < b -> 0 <= div_near_even a b.
Proof.
  intros Ha Hb. pose proof (div_near_even_spec a b Hb) as (H1 & _).
  pose proof (Z.div_pos a b Ha Hb). lia.
Qed.

Lemma div_near_even_lower a b : 0 < b -> 2 * a - b <= 2 * b * div_near_even a b.
Proof.
  intros Hb. pose proof (div_near_even_spec a b Hb) as (H1 & _ & H3).
  pose proof (Z.div_mod a b ltac:(lia)). pose proof (Z.mod_pos_bound a b Hb).
  destruct (Z.eq_dec (div_near_even a b) (a / b)) as [E|E].
  - specialize (H3 E). rewrite E. nia.
  - assert (div_near_even a b = a / b + 1) as -> by lia. nia.
Qed.

Lemma round_int_exact z : 0 <= z <= 2 ^ 53 -> round_int z = z.
Proof.
  intros Hz. destruct (Z.eq_dec z (2 ^ 53)) as [->|Hne]; [reflexivity|].
  unfold round_int. rewrite Z.abs_eq by lia.
  destruct (Z.eq_dec z 0) as [->|Hz0]; [reflexivity|].
  assert (Hl : Z.log2 z < 53) by (apply Z.log2_lt_pow2; lia).
  rewrite Z.max_l by lia. rewrite Z.pow_0_r.
  rewrite <- (Z.mul_1_r z) at 2. rewrite div_near_even_exact by lia.
  rewrite Z.sgn_pos by lia. lia.
Qed.

Lemma round_int_saturates : round_int (2 ^ 53 + 1) = 2 ^ 53.
Proof. reflexivity. Qed.

Lemma round_int_succ_min o :
  0 <= o -> round_int (Z.min o (2 ^ 53) + 1) = Z.min (o + 1) (2 ^ 53).
Proof.
  intros Ho. destruct (Z.le_gt_cases (2 ^ 53) o) as [H|H].
  - rewrite !Z.min_r by lia. apply round_int_saturates.
  - rewrite !Z.min_l by lia. apply round_int_exact. lia.
Qed.

Lemma pow2_le_exponent a b :
  0 < a -> 0 < b ->
  let e0 := Z.log2 a - Z.log2 b in
  pow2_le (if pow2_le e0 a b then e0 else e0 - 1) a b = true.
Proof.
  intros Ha Hb e0. destruct (pow2_le e0 a b) eqn:E; [exact E|].
  pose proof (Z.log2_spec a Ha) as [Ha1 _]. pose proof (Z.log2_spec b Hb) as [_ Hb2].
  pose proof (Z.log2_nonneg a). pose proof (Z.log2_nonneg b).
  unfold pow2_le, e0 in *. rewrite <- Z.add_1_r in Hb2.
  destruct (Z.leb_spec 0 (Z.log2 a - Z.log2 b - 1)) as [Hle|Hle]; apply Z.leb_le.
  - assert (Hp : 2 ^ (Z.log2 b + 1) * 2 ^ (Z.log2 a - Z.log2 b - 1) = 2 ^ Z.log2 a)
      by (rewrite <- Z.pow_add_r by lia; f_equal; lia).
    pose proof (Z.pow_pos_nonneg 2 (Z.log2 a - Z.log2 b - 1) ltac:(lia) Hle).
    nia.
  - assert (Hp : 2 ^ Z.log2 a * 2 ^ (- (Z.log2 a - Z.log2 b - 1)) = 2 ^ (Z.log2 b + 1))
      by (rewrite <- Z.pow_add_r by lia; f_equal; lia).
    pose proof (Z.pow_pos_nonneg 2 (- (Z.log2 a - Z.log2 b - 1)) ltac:(lia) ltac:(lia)).
    nia.
Qed.

Lemma pow2Q_nonneg s : (0 <= pow2Q s)%Q.
Proof.
  unfold pow2Q. destruct (0 <=? s).
  - change 0%Q with (inject_Z 0). rewrite <- Zle_Qle. apply Z.pow_nonneg. lia.
  - unfold Qle. simpl. lia.
Qed.

Lemma mul_pow2Q_le m s k :
  (s < 0 -> m <= k * 2 ^ (- s)) -> (0 <= s -> m * 2 ^ s <= k) ->
  (inject_Z m * pow2Q s <= inject_Z k)%Q.
Proof.
  intros H1 H2. unfold pow2Q. destruct (Z.leb_spec 0 s) as [Hs|Hs].
  - rewrite <- inject_Z_mult, <- Zle_Qle. auto.
  - unfold Qle. simpl. rewrite Pos.mul_1_l, Z2Pos.id by (apply Z.pow_pos_nonneg; lia). lia.
Qed.

Lemma mul_pow2Q_nonneg m s : 0 <= m -> (0 <= inject_Z m * pow2Q s)%Q.
Proof.
  intros Hm. apply Qmult_le_0_compat; [|apply pow2Q_nonneg].
  change 0%Q with (inject_Z 0). by rewrite <- Zle_Qle.
Qed.

(** The positive branch of [round64]: the exponent [e] of [a / b] satisfies
    [2^e <= a / b]. *)
Lemma round64_exponent a b :
  0 < a -> 0 < b ->
  let e0 := Z.log2 a - Z.log2 b in
  let e := if pow2_le e0 a b then e0 else e0 - 1 in
  (0 <= e -> b * 2 ^ e <= a) /\ (e < 0 -> b <= a * 2 ^ (- e)).
Proof.
  intros Ha Hb e0 e. pose proof (pow2_le_exponent a b Ha Hb) as H.
  change (pow2_le e a b = true) in H.
  unfold pow2_le in H. destruct (Z.leb_spec 0 e); apply Z.leb_le in H; split; lia.
Qed.

Lemma round64_le x k :
  (x <= inject_Z k)%Q -> 0 <= k <= 2 ^ 53 ->
  match round64 x with Finite y => (y <= inject_Z k)%Q | Infinity neg => neg = true end.
Proof.
  destruct x as [n d]. intros Hx Hk. unfold Qle in Hx. simpl in Hx.
  unfold round64. cbn [Qnum Qden].
  set (a := Z.abs n). set (b := Z.pos d).
  set (e0 := Z.log2 a - Z.log2 b).
  set (e := if pow2_le e0 a b then e0 else e0 - 1).
  set (s := Z.max (e - 52) (-1074)).
  set (m := if 0 <=? s then div_near_even a (b * 2 ^ s) else div_near_even (a * 2 ^ (- s)) b).
  assert (Hb : 0 < b) by (unfold b; lia).
  assert (Hm0 : 0 <= m).
  { unfold m. destruct (Z.leb_spec 0 s).
    - apply div_near_even_nonneg; [unfold a; lia|]. pose proof (Z.pow_pos_nonneg 2 s). nia.
    - apply div_near_even_nonneg; [|lia]. pose proof (Z.pow_pos_nonneg 2 (- s)). unfold a. nia. }
  assert (Hv0 := mul_pow2Q_nonneg m s Hm0).
  assert (Hpos : 0 <= n -> (inject_Z m * pow2Q s <= inject_Z k)%Q).
  { intros Hn. assert (Ha : a = n) by (unfold a; lia).
    destruct (Z.eq_dec n 0) as [Hn0|Hn0].
    - assert (Hm : m = 0).
      { unfold m. rewrite Ha, Hn0. destruct (Z.leb_spec 0 s).
        - rewrite <- (Z.mul_0_l (b * 2 ^ s)) at 1. apply div_near_even_exact.
          pose proof (Z.pow_pos_nonneg 2 s). nia.
        - rewrite Z.mul_0_l, <- (Z.mul_0_l b) at 1. by apply div_near_even_exact. }
      rewrite Hm. apply mul_pow2Q_le; intros; lia.
    - destruct (round64_exponent a b ltac:(lia) Hb) as [He1 He2]. fold e0 e in He1, He2.
      assert (Hak : a <= k * b) by lia.
      destruct (Z.le_gt_cases 53 e) as [He|He].
      + specialize (He1 ltac:(lia)).
        assert (E53 : e = 53).
        { destruct (Z.eq_dec e 53) as [|Hne]; [done|].
          assert (2 ^ 54 <= 2 ^ e) by (apply Z.pow_le_mono_r; lia). nia. }
        assert (Es : s = 1) by (unfold s; rewrite E53; reflexivity).
        assert (Ea : a = 2 ^ 52 * (b * 2 ^ s)).
        { rewrite E53 in He1. rewrite Es. nia. }
        assert (Hm : m = 2 ^ 52).
        { unfold m. rewrite Es. simpl. rewrite Ea, Es. apply div_near_even_exact. lia. }
        assert (Hk53 : 2 ^ 53 <= k).
        { apply (Z.mul_le_mono_pos_r _ _ b Hb). rewrite Es in Ea.
          replace (2 ^ 53 * b) with a by (rewrite Ea; ring). lia. }
        rewrite Hm, Es. apply mul_pow2Q_le; intros; [lia|]. change (2 ^ 52 * 2 ^ 1 <= k). lia.
      + assert (Hs : s <= 0) by (unfold s; lia).
        apply mul_pow2Q_le; intros Hs'.
        * unfold m. destruct (Z.leb_spec 0 s); [lia|].
          apply div_near_even_le; [lia|].
          pose proof (Z.pow_pos_nonneg 2 (- s)). nia.
        * assert (s = 0) as Es by lia. unfold m. rewrite Es. simpl.
          rewrite Z.mul_1_r. apply div_near_even_le; lia. }
  assert (Hbig : (inject_Z k < inject_Z (2 ^ 1024))%Q)
    by (rewrite <- Zlt_Qlt; apply Z.le_lt_trans with (2 ^ 53); [lia|reflexivity]).
  destruct (Z.ltb_spec n 0) as [Hn|Hn].
  - destruct (Qle_bool _ _); [reflexivity|].
    apply Qle_trans with 0%Q; [|change 0%Q with (inject_Z 0); rewrite <- Zle_Qle; lia].
    apply Qopp_le_compat in Hv0. exact Hv0.
  - specialize (Hpos Hn).
    destruct (Qle_bool _ _) eqn:Ho.
    + apply Qle_bool_iff in Ho. exfalso. apply (Qlt_not_le _ _ Hbig).
      apply Qle_trans with (1 := Ho). exact Hpos.
    + exact Hpos.
Qed.

Lemma mul_pow2Q_ge n d m s :
  (s < 0 -> (2 * n - Z.pos d) * 2 ^ (- s) <= 2 * Z.pos d * m) ->
  (0 <= s -> 2 * n - Z.pos d <= 2 * Z.pos d * (m * 2 ^ s)) ->
  ((n # d) - (1 # 2) <= inject_Z m * pow2Q s)%Q.
Proof.
  intros H1 H2. unfold pow2Q. destruct (Z.leb_spec 0 s) as [Hs|Hs].
  - rewrite <- inject_Z_mult. specialize (H2 Hs).
    unfold Qle, Qminus, Qplus, Qopp. simpl. rewrite Pos2Z.inj_mul. nia.
  - specialize (H1 Hs). unfold Qle, Qminus, Qplus, Qopp, Qmult. simpl.
    rewrite Pos.mul_1_l, Z2Pos.id by (apply Z.pow_pos_nonneg; lia).
    rewrite Pos2Z.inj_mul. nia.
Qed.

Lemma round64_lower x :
  (0 <= x)%Q -> (x <= inject_Z (2 ^ 53))%Q ->
  exists y, round64 x = Finite y /\ (x - (1 # 2) <= y)%Q.
Proof.
  intros H0 H1. pose proof (round64_le x (2 ^ 53) H1 ltac:(lia)) as Hle.
  destruct x as [n d]. unfold Qle in H0, H1. simpl in H0, H1.
  revert Hle. unfold round64. cbn [Qnum Qden].
  assert (Hneg : (n <? 0) = false) by (apply Z.ltb_ge; lia). rewrite Hneg.
  set (a := Z.abs n). set (b := Z.pos d).
  set (e0 := Z.log2 a - Z.log2 b).
  set (e := if pow2_le e0 a b then e0 else e0 - 1).
  set (s := Z.max (e - 52) (-1074)).
  set (m := if 0 <=? s then div_near_even a (b * 2 ^ s) else div_near_even (a * 2 ^ (- s)) b).
  destruct (Qle_bool _ _); [discriminate|]. intros _. eexists. split; [reflexivity|].
  assert (Ha : a = n) by (unfold a; lia).
  assert (Hb : 0 < b) by (unfold b; lia).
  destruct (Z.eq_dec n 0) as [Hn0|Hn0].
  { apply mul_pow2Q_ge; intros Hs.
    - pose proof (Z.pow_pos_nonneg 2 (- s)). assert (0 <= m).
      { unfold m. destruct (Z.leb_spec 0 s); [lia|]. apply div_near_even_nonneg; [|lia].
        rewrite Ha. nia. }
      fold b. nia.
    - pose proof (Z.pow_pos_nonneg 2 s). assert (0 <= m).
      { unfold m. destruct (Z.leb_spec 0 s); [|lia]. apply div_near_even_nonneg; [|nia].
        rewrite Ha. lia. }
      fold b. nia. }
  destruct (round64_exponent a b ltac:(lia) Hb) as [He1 He2]. fold e0 e in He1, He2.
  apply mul_pow2Q_ge; intros Hs; fold b.
  - unfold m. destruct (Z.leb_spec 0 s); [lia|].
    pose proof (div_near_even_lower (a * 2 ^ (- s)) b Hb).
    pose proof (Z.pow_pos_nonneg 2 (- s)). rewrite <- Ha. nia.
  - assert (He : e = 52 \/ e = 53).
    { assert (e >= 52) by (unfold s in Hs; lia).
      destruct (Z.le_gt_cases e 53) as [|He]; [lia|].
      specialize (He1 ltac:(lia)).
      assert (2 ^ 54 <= 2 ^ e) by (apply Z.pow_le_mono_r; lia). nia. }
    unfold m. destruct (Z.leb_spec 0 s); [|lia]. rewrite <- Ha.
    destruct He as [He|He].
    + assert (Es : s = 0) by (unfold s; lia). rewrite Es.
      pose proof (div_near_even_lower a (b * 2 ^ 0) ltac:(simpl; lia)).
      change (2 ^ 0) with 1 in *. nia.
    + assert (Es : s = 1) by (unfold s; lia). rewrite Es.
      specialize (He1 ltac:(lia)). rewrite He in He1.
      assert (Ea : a = 2 ^ 52 * (b * 2 ^ 1)) by (change (2 ^ 53) with (2 ^ 52 * 2 ^ 1) in *; nia).
      replace (div_near_even a (b * 2 ^ 1)) with (2 ^ 52).
      2: { symmetry. rewrite Ea. apply div_near_even_exact. lia. }
      lia.
Qed.

Lemma round64_ceil x :
  (0 <= x)%Q -> (x <= inject_Z (2 ^ 53))%Q ->
  exists a, f64_ceil (round64 x) = Finite (inject_Z a) /\ Qceiling x - 1 <= a <= Qceiling x.
Proof.
  intros H0 H1. destruct (round64_lower x H0 H1) as [y [Hy Hlow]].
  assert (Hc : 0 <= Qceiling x <= 2 ^ 53).
  { split.
    - rewrite <- (Qceiling_Z 0). apply Qceiling_resp_le. exact H0.
    - rewrite <- (Qceiling_Z (2 ^ 53)). apply Qceiling_resp_le. exact H1. }
  pose proof (round64_le x (Qceiling x) (Qle_ceiling x) Hc) as Hup. rewrite Hy in Hup.
  exists (Qceiling y). unfold f64_ceil. rewrite Hy. split; [reflexivity|]. split.
  - pose proof (Qceiling_lt x) as Hlt. pose proof (Qle_ceiling y) as Hy'.
    assert (Hq : (inject_Z (Qceiling x - 1) - (1 # 2) < inject_Z (Qceiling y))%Q).
    { eapply Qlt_le_trans; [|exact Hy']. eapply Qlt_le_trans; [|exact Hlow].
      apply Qplus_lt_l. exact Hlt. }
    unfold Qlt, Qminus, Qplus, Qopp in Hq. simpl in Hq. lia.
  - rewrite <- (Qceiling_Z (Qceiling x)). apply Qceiling_resp_le. exact Hup.
Qed.

Lemma Zle_f64_mono a b f : b <= a -> Zle_f64 a f = true -> Zle_f64 b f = true.
Proof.
  intros Hab. destruct f as [x|neg]; simpl; [|done].
  rewrite !Qle_bool_iff. intros H. eapply Qle_trans; [|exact H].
  rewrite <- Zle_Qle. exact Hab.
Qed.

Lemma Zle_f64_finite z a : Zle_f64 z (Finite (inject_Z a)) = true <-> z <= a.
Proof. simpl. rewrite Qle_bool_iff, <- Zle_Qle. done. Qed.

(** ** Counting lemmas *)

Lemma owned_count_empty n : owned_count n ∅ = 0%nat.
Proof. unfold owned_count. by rewrite map_filter_empty, map_size_empty. Qed.

Lemma owned_count_insert n k m (parts : gmap Z Member) :
  parts !! k = None ->
  owned_count n (<[k := m]> parts) =
    (owned_count n parts + if decide (Name m = n) then 1 else 0)%nat.
Proof.
  intros Hk. unfold owned_count. case_decide as Hn.
  - rewrite map_filter_insert_True by done.
    rewrite map_size_insert_None; [lia|].
    apply map_lookup_filter_None_2. by left.
  - rewrite map_filter_insert_False by done.
    rewrite delete_id by done. lia.
Qed.

Lemma total_load_empty : total_load ∅ = 0.
Proof. unfold total_load. by rewrite map_fold_empty. Qed.

Lemma total_load_insert (lds : gmap string Z) n v :
  total_load (<[n := v]> lds) = total_load lds - default 0 (lds !! n) + v.
Proof.
  unfold total_load. destruct (lds !! n) as [old|] eqn:E; simpl.
  - rewrite <- insert_delete_eq.
    rewrite map_fold_insert_L; [| intros; lia | by rewrite lookup_delete_eq].
    rewrite (map_fold_delete_L _ _ n old lds); [lia | intros; lia | done].
  - rewrite map_fold_insert_L; [lia | intros; lia | done].
Qed.

Lemma pass_inv_empty avg : pass_inv avg ∅ ∅.
Proof.
  split; [|split].
  - intros n l H. by rewrite lookup_empty in H.
  - intros n _. apply owned_count_empty.
  - by rewrite total_load_empty, map_size_empty.
Qed.

Lemma owned_count_le_size n (parts : gmap Z Member) : (owned_count n parts <= size parts)%nat.
Proof. unfold owned_count. apply map_size_filter. Qed.

Lemma pass_inv_step avg parts lds pid m :
  parts !! pid = None ->
  Zle_f64 (round_int (default 0 (lds !! Name m) + 1)) avg = true ->
  pass_inv avg parts lds ->
  pass_inv avg (<[pid := m]> parts)
    (<[Name m := round_int (default 0 (lds !! Name m) + 1)]> lds).
Proof.
  intros Hpid Hcap (Hl & Hnone & Htot).
  set (o := Z.of_nat (owned_count (Name m) parts)).
  assert (Hold : default 0 (lds !! Name m) = Z.min o (2 ^ 53)).
  { destruct (lds !! Name m) as [l|] eqn:E; simpl.
    - by apply Hl.
    - unfold o. rewrite Hnone by done. lia. }
  assert (Hnew : round_int (default 0 (lds !! Name m) + 1) = Z.min (o + 1) (2 ^ 53))
    by (rewrite Hold; apply round_int_succ_min; lia).
  rewrite Hnew in Hcap |- *.
  assert (Ho : Z.of_nat (owned_count (Name m) (<[pid := m]> parts)) = o + 1)
    by (unfold o; rewrite owned_count_insert by done; rewrite decide_True by done; lia).
  split; [|split].
  - intros n l Hn.
    destruct (decide (Name m = n)) as [<-|Hne].
    + rewrite lookup_insert_eq in Hn. injection Hn as <-. rewrite Ho.
      split; [lia|]. split; [exact Hcap|lia].
    + rewrite lookup_insert_ne in Hn by done. apply Hl in Hn.
      rewrite owned_count_insert, decide_False by done. rewrite Nat.add_0_r. exact Hn.
  - intros n Hn. rewrite owned_count_insert by done.
    destruct (decide (Name m = n)) as [<-|Hne].
    + by rewrite lookup_insert_eq in Hn.
    + rewrite lookup_insert_ne in Hn by done. rewrite Hnone by done. lia.
  - rewrite total_load_insert, map_size_insert_None by done. intros Hs.
    pose proof (owned_count_le_size (Name m) parts).
    rewrite Htot by lia. fold o in Hold. unfold o in *. lia.
Qed.

(** ** One partition: the walk of [distributeWithLoad] *)

Lemma walk_inr c avg pid fuel count idx parts lds parts' lds' :
  walk c avg pid fuel count idx parts lds = inr (parts', lds') ->
  exists m, parts' = <[pid := m]> parts /\
    lds' = <[Name m := round_int (default 0 (lds !! Name m) + 1)]> lds /\
    Zle_f64 (round_int (default 0 (lds !! Name m) + 1)) avg = true.
Proof.
  revert count idx.
  induction fuel as [|fuel IH]; intros count idx H; simpl in H; [discriminate|].
  destruct (length (sortedSet c) <=? S count)%nat; [discriminate|].
  destruct (sortedSet c !! idx) as [i|]; [|discriminate].
  destruct (ring c !! i) as [m|]; [|discriminate].
  destruct (Zle_f64 (round_int (default 0 (lds !! Name m) + 1)) avg) eqn:E.
  - injection H as <- <-. by exists m.
  - eapply IH. exact H.
Qed.

Lemma distributeWithLoad_inr c pid idx parts lds parts' lds' :
  distributeWithLoad c pid idx parts lds = inr (parts', lds') ->
  exists avg m, AverageLoad c = inr avg /\ parts' = <[pid := m]> parts /\
    lds' = <[Name m := round_int (default 0 (lds !! Name m) + 1)]> lds /\
    Zle_f64 (round_int (default 0 (lds !! Name m) + 1)) avg = true.
Proof.
  unfold distributeWithLoad. destruct (AverageLoad c) as [p|avg]; [discriminate|].
  intros H. apply walk_inr in H as (m & ?). by exists avg, m.
Qed.

(** The walk takes the first ring point when it is not the only one and
    its member passes the cap test. *)
Lemma distributeWithLoad_first c avg pid idx parts lds i m :
  (2 <= length (sortedSet c))%nat -> AverageLoad c = inr avg ->
  sortedSet c !! idx = Some i -> ring c !! i = Some m ->
  Zle_f64 (round_int (default 0 (lds !! Name m) + 1)) avg = true ->
  distributeWithLoad c pid idx parts lds =
    inr (<[pid := m]> parts, <[Name m := round_int (default 0 (lds !! Name m) + 1)]> lds).
Proof.
  intros Hlen Havg Hi Hm Hl. unfold distributeWithLoad. rewrite Havg.
  destruct (length (sortedSet c)) as [|[|n]] eqn:E; [lia|lia|]. simpl.
  rewrite E. simpl. rewrite Hi, Hm, Hl. done.
Qed.

(** ** A whole pass *)

Lemma distributeFrom_inr c avg s n parts lds parts' lds' :
  AverageLoad c = inr avg ->
  (Z.of_nat (s + n) <= 2 ^ 64)%Z ->
  (forall k, (s <= k < s + n)%nat -> parts !! to_int (Z.of_nat k) = None) ->
  pass_inv avg parts lds ->
  distributeFrom c (map Z.of_nat (seq s n)) parts lds = inr (parts', lds') ->
  pass_inv avg parts' lds' /\ size parts' = (size parts + n)%nat /\
  (forall i, is_Some (parts' !! i) <->
     is_Some (parts !! i) \/ exists k, (s <= k < s + n)%nat /\ i = to_int (Z.of_nat k)).
Proof.
  intros Havg. revert s parts lds.
  induction n as [|n IH]; intros s parts lds Hrange Hfresh Hinv H; simpl in H.
  - injection H as <- <-. split; [done|split; [lia|]].
    intros i. split; [by left|]. intros [?|(k & Hk & _)]; [done|lia].
  - destruct (distributeWithLoad c _ _ parts lds) as [p|[p1 l1]] eqn:Hd; [discriminate|].
    apply distributeWithLoad_inr in Hd as (avg' & m & Havg' & -> & -> & Hcap).
    rewrite Havg in Havg'. injection Havg' as <-.
    assert (Hs : parts !! to_int (Z.of_nat s) = None) by (apply Hfresh; lia).
    assert (Hfresh' : forall k, (S s <= k < S s + n)%nat ->
              <[to_int (Z.of_nat s) := m]> parts !! to_int (Z.of_nat k) = None).
    { intros k Hk. rewrite lookup_insert_ne.
      - apply Hfresh. lia.
      - intros Heq. apply to_int_inj in Heq; lia. }
    destruct (IH (S s) _ _ ltac:(lia) Hfresh' (pass_inv_step _ _ _ _ _ Hs Hcap Hinv) H)
      as (Hinv' & Hsize & Hdom).
    split; [done|split].
    + rewrite Hsize, map_size_insert_None by done. lia.
    + intros i. rewrite Hdom, lookup_insert_is_Some'. split.
      * intros [[<-|?]|(k & Hk & ->)]; [right; exists s; split; [lia|done]|by left|].
        right. exists k. split; [lia|done].
      * intros [?|(k & Hk & ->)]; [left; by right|].
        destruct (decide (k = s)) as [->|]; [left; by left|].
        right. exists k. split; [lia|done].
Qed.

(** ** The installed pass *)

Lemma walk_set_table c p l avg pid fuel count idx parts lds :
  walk (set_table c p l) avg pid fuel count idx parts lds =
  walk c avg pid fuel count idx parts lds.
Proof.
  revert count idx. induction fuel as [|fuel IH]; intros count idx; [done|].
  simpl. destruct (length (sortedSet c) <=? S count)%nat; [done|].
  destruct (sortedSet c !! idx); [|done].
  destruct (ring c !! z); [|done].
  case_match; [done|]. apply IH.
Qed.

Lemma AverageLoad_set_table c p l : AverageLoad (set_table c p l) = AverageLoad c.
Proof. done. Qed.

Lemma real_cap_set_table c p l : real_cap (set_table c p l) = real_cap c.
Proof. done. Qed.

Lemma distributeFrom_set_table c p l ids parts lds :
  distributeFrom (set_table c p l) ids parts lds = distributeFrom c ids parts lds.
Proof.
  revert parts lds. induction ids as [|pid ids IH]; intros parts lds; [done|].
  simpl. unfold distributeWithLoad. rewrite AverageLoad_set_table.
  destruct (AverageLoad c); [done|]. rewrite walk_set_table.
  destruct (walk c _ _ _ _ _ _ _) as [|[]]; [done|]. apply IH.
Qed.

Lemma set_table_set_table c p l p' l' :
  set_table (set_table c p l) p' l' = set_table c p' l'.
Proof. done. Qed.

Lemma distributePartitions_fields c c' :
  distributePartitions c = (c', None) ->
  exists parts lds, distributeFrom c (partitionIDs c) ∅ ∅ = inr (parts, lds) /\
    c' = set_table c parts lds.
Proof.
  unfold distributePartitions.
  destruct (distributeFrom c (partitionIDs c) ∅ ∅) as [|[parts lds]]; [done|].
  intros [= <-]. by exists parts, lds.
Qed.

Lemma distributePartitions_fixed c c' :
  distributePartitions c = (c', None) -> distributePartitions c' = (c', None).
Proof.
  intros (parts & lds & Hd & ->) % distributePartitions_fields.
  unfold distributePartitions, partitionIDs.
  rewrite distributeFrom_set_table. unfold partitionIDs in Hd. simpl. rewrite Hd.
  by rewrite set_table_set_table.
Qed.

Lemma AverageLoad_nonempty c :
  size (members c) <> 0%nat -> exists avg, AverageLoad c = inr avg.
Proof.
  intros H. unfold AverageLoad. case_decide; [lia|]. by eexists.
Qed.

Lemma distributePartitions_ok c c' :
  size (members c) <> 0%nat -> 0 <= partitionCount c < 2 ^ 64 ->
  distributePartitions c = (c', None) ->
  exists avg, AverageLoad c = inr avg /\ pass_inv avg (partitions c') (loads c') /\
    size (partitions c') = Z.to_nat (partitionCount c) /\
    (forall i, is_Some (partitions c' !! i) <->
       exists k, 0 <= k < partitionCount c /\ i = to_int k) /\
    c' = set_table c (partitions c') (loads c').
Proof.
  intros Hm Hp (parts & lds & Hd & ->) % distributePartitions_fields.
  destruct (AverageLoad_nonempty c Hm) as [avg Havg].
  unfold partitionIDs in Hd.
  destruct (distributeFrom_inr c avg 0 (Z.to_nat (partitionCount c)) ∅ ∅ parts lds Havg)
    as (Hinv & Hsize & Hdom); [lia| |apply pass_inv_empty|done|].
  { intros k _. apply lookup_empty. }
  exists avg. split; [done|]. split; [done|]. split; [simpl; rewrite Hsize, map_size_empty; lia|].
  split; [|done]. intros i. simpl. rewrite Hdom, lookup_empty. split.
  - intros [[? ?]|(k & Hk & ->)]; [done|]. exists (Z.of_nat k). split; [lia|done].
  - intros (k & Hk & ->). right. exists (Z.to_nat k). split; [lia|]. by rewrite Z2Nat.id by lia.
Qed.

(** ** The cap against the spec's formula *)

(** The integer division only lowers the cap, and so does the rounding of
    the product once [P <= 2^53]: a load of at least one that passes the
    [float64] test against [AverageLoad] and is at most [P] is at most the
    cap with a real division. *)
Lemma load_le_real_cap c avg l :
  AverageLoad c = inr avg -> 0 <= partitionCount c <= 2 ^ 53 ->
  1 <= l -> l <= partitionCount c -> Zle_f64 l avg = true -> l <= real_cap c.
Proof.
  unfold AverageLoad, real_cap.
  set (n := Z.of_nat (size (members c))). set (P := partitionCount c).
  set (F := LoadFactor (config c)).
  case_decide as Hn; [discriminate|]. intros [= <-] HP Hl1 HlP Hz.
  assert (Hqn : 0 <= P / n <= P).
  { split; [apply Z.div_pos; lia|]. apply Z.div_le_upper_bound; [lia|]. nia. }
  rewrite (round_int_exact (P / n)) in Hz by lia.
  assert (Hq0 : (0 <= inject_Z (P / n))%Q).
  { change (inject_Z 0 <= inject_Z (P / n))%Q. rewrite <- Zle_Qle. lia. }
  assert (Hq : (inject_Z (P / n) <= inject_Z P / inject_Z n)%Q).
  { apply Qle_shift_div_l.
    - change (inject_Z 0 < inject_Z n)%Q. rewrite <- Zlt_Qlt. lia.
    - rewrite <- inject_Z_mult, <- Zle_Qle. rewrite Z.mul_comm.
      apply Z.mul_div_le. lia. }
  destruct (Qlt_le_dec F 0) as [HF|HF].
  - exfalso.
    assert (H0 : (F * inject_Z (P / n) <= 0 * inject_Z (P / n))%Q)
      by (apply Qmult_le_compat_r; [apply Qlt_le_weak|]; done).
    rewrite Qmult_comm, Qmult_0_l in H0.
    pose proof (round64_le _ 0 H0 ltac:(lia)) as Hr. revert Hr Hz.
    destruct (round64 (inject_Z (P / n) * F)) as [y|neg]; simpl; intros Hr Hz.
    + rewrite Qle_bool_iff, <- Zle_Qle in Hz.
      apply Qceiling_resp_le in Hr. change (Qceiling (inject_Z 0)) with 0 in Hr. lia.
    + subst neg. discriminate.
  - set (k := Qceiling (inject_Z P / inject_Z n * F)).
    assert (Hx : (inject_Z (P / n) * F <= inject_Z k)%Q).
    { eapply Qle_trans; [by apply Qmult_le_compat_r|]. apply Qle_ceiling. }
    assert (Hk0 : 0 <= k).
    { unfold k. rewrite <- (Qceiling_Z 0). apply Qceiling_resp_le.
      apply Qmult_le_0_compat; [|done]. eapply Qle_trans; [exact Hq0|exact Hq]. }
    destruct (Z.le_gt_cases P k) as [HPk|HPk]; [lia|].
    pose proof (round64_le _ k Hx ltac:(lia)) as Hr. revert Hr Hz.
    destruct (round64 (inject_Z (P / n) * F)) as [y|neg]; simpl; intros Hr Hly.
    + rewrite Qle_bool_iff, <- Zle_Qle in Hly.
      apply Qceiling_resp_le in Hr. rewrite Qceiling_Z in Hr. lia.
    + subst neg. discriminate.
Qed.

Lemma distributePartitions_frame c c' r :
  distributePartitions c = (c', r) ->
  members c' = members c /\ partitionCount c' = partitionCount c /\
  config c' = config c /\ ring c' = ring c /\ sortedSet c' = sortedSet c.
Proof.
  unfold distributePartitions.
  destruct (distributeFrom c (partitionIDs c) ∅ ∅) as [|[]]; intros [= <- _]; done.
Qed.

Lemma distributePartitions_capped c c' :
  size (members c) <> 0%nat -> 0 <= partitionCount c <= 2 ^ 53 ->
  distributePartitions c = (c', None) -> capped c'.
Proof.
  intros Hm Hp Hd.
  destruct (distributePartitions_ok c c' Hm ltac:(lia) Hd)
    as (avg & Havg & (Hl & _ & _) & Hsize & _ & Hc').
  assert (HA : AverageLoad c' = AverageLoad c) by (rewrite Hc'; done).
  assert (HR : real_cap c' = real_cap c) by (rewrite Hc'; done).
  exists avg. rewrite HA, HR. split; [done|].
  intros n l Hn. destruct (Hl n l Hn) as (Hb & Hle & Hcnt).
  pose proof (owned_count_le_size n (partitions c')) as Hos.
  assert (Hcnt' : Z.of_nat (owned_count n (partitions c')) = l) by lia.
  split; [done|]. split; [|done].
  apply (load_le_real_cap c avg l); [done|lia|lia|lia|done].
Qed.

(** ** The mutations, case by case *)

Lemma add_frame sortSlice c m :
  members (add sortSlice c m) = <[Name m := m]> (members c) /\
  partitionCount (add sortSlice c m) = partitionCount c /\
  partitions (add sortSlice c m) = partitions c /\
  loads (add sortSlice c m) = loads c /\
  config (add sortSlice c m) = config c.
Proof. unfold add. by destruct (fold_left _ _ _). Qed.

Lemma fold_add_partitionCount sortSlice ms c :
  partitionCount (fold_left (add sortSlice) ms c) = partitionCount c.
Proof.
  revert c. induction ms as [|m ms IH]; intros c; [done|].
  simpl. rewrite IH. apply add_frame.
Qed.

Lemma Add_cases sortSlice c m c' r :
  Add sortSlice c m = (c', r) ->
  (is_Some (members c !! Name m) /\ c' = c /\ r = None) \/
  (members c !! Name m = None /\ distributePartitions (add sortSlice c m) = (c', r)).
Proof.
  unfold Add. destruct (members c !! Name m) eqn:E.
  - intros [= <- <-]. left. eauto.
  - intros H. by right.
Qed.

Lemma Remove_cases c name c' r :
  Remove c name = (c', r) ->
  (members c !! name = None /\ c' = c /\ r = None) \/
  (exists rg ss, is_Some (members c !! name) /\
     let c1 := set_ring_members c ss rg (delete name (members c)) in
     (size (members c1) = 0%nat /\ c' = set_partitions c1 ∅ /\ r = None) \/
     (size (members c1) <> 0%nat /\ distributePartitions c1 = (c', r))).
Proof.
  unfold Remove. destruct (members c !! name) eqn:E.
  - destruct (fold_left _ _ _) as [rg ss].
    intros H. right. exists rg, ss. split; [done|]. simpl.
    case_decide as Hs.
    + left. injection H as <- <-. done.
    + right. done.
  - intros [= <- <-]. left. done.
Qed.

(** ** C1 *)

(** C1 (as the code has it): after a successful construction, [Add] or
    [Remove] that runs a distribution pass over a non-empty member set,
    with a partition count of at most [2^53], every load in the installed
    load map is the number of partitions the table maps to that member, it
    passes the [float64] test [load <= AverageLoad] (the cap
    [ceil(float64(P div n) * F)] with the member count [n] of that pass),
    and it is at most the cap [ceil((P / n) * F)] with a real division. *)
Theorem loads_within_average_load (sortSlice : list Z -> list Z) :
  (forall ms cfg c, New sortSlice ms cfg = inr c ->
     size (members c) <> 0%nat -> partitionCount c <= 2 ^ 53 -> capped c) /\
  (forall c m c', 0 <= partitionCount c <= 2 ^ 53 -> members c !! Name m = None ->
     Add sortSlice c m = (c', None) -> capped c') /\
  (forall c name c', 0 <= partitionCount c <= 2 ^ 53 -> is_Some (members c !! name) ->
     Remove c name = (c', None) -> size (members c') <> 0%nat -> capped c').
Proof.
  split; [|split].
  - intros ms cfg c. unfold New.
    destruct (cfgHasher cfg) as [h|]; [|discriminate].
    destruct ms as [ms|]; simpl.
    + destruct (distributePartitions _) as [c2 [p|]] eqn:Hd; [discriminate|].
      intros [= <-] Hm HP.
      destruct (distributePartitions_frame _ _ _ Hd) as (Hmem & Hpc & _).
      eapply distributePartitions_capped; [| |exact Hd]; [congruence|].
      rewrite <- Hpc. split; [|exact HP]. rewrite Hpc, fold_add_partitionCount.
      simpl. unfold to_uint64. apply Z.mod_pos_bound. lia.
    + intros [= <-] Hm. simpl in Hm. by rewrite map_size_empty in Hm.
  - intros c m c' Hp Hnew HAdd.
    destruct (Add_cases _ _ _ _ _ HAdd) as [(Hin & _)|(_ & Hd)].
    { rewrite Hnew in Hin. by destruct Hin. }
    destruct (add_frame sortSlice c m) as (Hmem & Hpc & _).
    eapply distributePartitions_capped; [| |exact Hd].
    + rewrite Hmem, map_size_insert, Hnew. lia.
    + by rewrite Hpc.
  - intros c name c' Hp Hin HRem Hm.
    destruct (Remove_cases _ _ _ _ HRem) as [(Hn & _)|(rg & ss & _ & [(Hs & -> & _)|(Hs & Hd)])].
    + rewrite Hn in Hin. by destruct Hin.
    + done.
    + by apply (distributePartitions_capped _ _ Hs).
Qed.

(** ** States reached without a panic *)

Lemma reach_inv_distribute c c' :
  0 <= partitionCount c < 2 ^ 64 -> distributePartitions c = (c', None) -> reach_inv c'.
Proof.
  intros Hp Hd. destruct (distributePartitions_frame _ _ _ Hd) as (_ & Hpc & _).
  split; [by rewrite Hpc|]. intros _. by apply (distributePartitions_fixed c).
Qed.

Lemma reach_inv_step sortSlice c op c' :
  reach_inv c -> step sortSlice c op = (c', None) -> reach_inv c'.
Proof.
  intros [Hp Hfix]. destruct op as [m|name]; simpl.
  - intros HAdd. destruct (Add_cases _ _ _ _ _ HAdd) as [(_ & -> & _)|(_ & Hd)].
    + by split.
    + apply (reach_inv_distribute _ _ ltac:(by rewrite (proj1 (proj2 (add_frame sortSlice c m)))) Hd).
  - intros HRem.
    destruct (Remove_cases _ _ _ _ HRem) as [(_ & -> & _)|(rg & ss & _ & [(Hs & -> & _)|(Hs & Hd)])].
    + by split.
    + split; [done|]. simpl in *. done.
    + eapply reach_inv_distribute; [|exact Hd]. exact Hp.
Qed.

Lemma reach_inv_run sortSlice c ops c' :
  reach_inv c -> run sortSlice c ops = (c', None) -> reach_inv c'.
Proof.
  revert c. induction ops as [|op ops IH]; intros c Hc; simpl.
  - by intros [= <-].
  - destruct (step sortSlice c op) as [c1 [p|]] eqn:Hs; [discriminate|].
    apply IH. by apply (reach_inv_step sortSlice c op).
Qed.

Lemma reach_inv_New sortSlice ms cfg c :
  New sortSlice ms cfg = inr c -> reach_inv c.
Proof.
  unfold New. destruct (cfgHasher cfg) as [h|]; [|discriminate].
  assert (Hp : 0 <= to_uint64 (PartitionCount cfg) < 2 ^ 64)
    by (unfold to_uint64; apply Z.mod_pos_bound; lia).
  destruct ms as [ms|]; simpl.
  - destruct (distributePartitions _) as [c2 [p|]] eqn:Hd; [discriminate|].
    intros [= <-]. eapply reach_inv_distribute; [|exact Hd].
    by rewrite fold_add_partitionCount.
  - intros [= <-]. split; [done|]. simpl. by rewrite map_size_empty.
Qed.

(** ** C3 *)

(** C3 (as the code has it): after construction and any sequence of
    [Add]/[Remove] calls that completes without a panic and leaves the
    member set non-empty, every partition index [k] in [[0, P)] has an
    owner in the table (under the [int(k)] key the code uses), the table has
    no other key, and the loads add up to [P] when [P <= 2^53]. *)
Theorem table_complete_after_ops (sortSlice : list Z -> list Z) ms cfg c0 ops c :
  New sortSlice ms cfg = inr c0 ->
  run sortSlice c0 ops = (c, None) ->
  size (members c) <> 0%nat ->
  (forall k, 0 <= k < partitionCount c ->
     exists m, GetPartitionOwner c (to_int k) = Some m) /\
  (forall i m, GetPartitionOwner c i = Some m ->
     exists k, 0 <= k < partitionCount c /\ i = to_int k) /\
  (partitionCount c <= 2 ^ 53 -> total_load (loads c) = partitionCount c).
Proof.
  intros HN Hrun Hm.
  destruct (reach_inv_run _ _ _ _ (reach_inv_New _ _ _ _ HN) Hrun) as [Hp Hfix].
  specialize (Hfix Hm).
  destruct (distributePartitions_ok c c Hm Hp Hfix)
    as (avg & _ & (_ & _ & Htot) & Hsize & Hdom & _).
  split; [|split].
  - intros k Hk. unfold GetPartitionOwner.
    destruct (proj2 (Hdom (to_int k)) (ex_intro _ k (conj Hk eq_refl))) as [m Hk'].
    by exists m.
  - intros i m Hi. apply Hdom. unfold GetPartitionOwner in Hi. by rewrite Hi.
  - intros HP. rewrite Htot; rewrite Hsize; lia.
Qed.

(** ** Evaluation helpers *)

Lemma new_or_inr dflt (r : Panic + Consistent) :
  match r with inr _ => True | inl _ => False end -> r = inr (new_or dflt r).
Proof. by destruct r. Qed.

Lemma pair_no_panic (r : Consistent * option Panic) : r.2 = None -> r = (r.1, None).
Proof. destruct r as [c p]. simpl. by intros ->. Qed.

Lemma distributePartitions_panic c c' p :
  distributePartitions c = (c', Some p) -> c' = c.
Proof.
  unfold distributePartitions.
  destruct (distributeFrom c (partitionIDs c) ∅ ∅) as [|[]]; by intros [= <- _].
Qed.

(** ** C2 *)

(** C2 (as the code has it): for a non-empty member set, [AverageLoad] is
    [math.Ceil] of the [float64] product of [float64(P div n)] and [F],
    where [P div n] is the integer quotient of the partition count by the
    member count; when [P <= 2^53], [F >= 0] and [(P div n) * F <= 2^53],
    it is a whole number, [ceil((P div n) * F)] or one less (the product is
    rounded to a [float64] before the ceiling); and it is the cap the walk
    of [distributeWithLoad] enforces: a partition goes to a member only if
    that member's load plus one, added in [float64], is at most this value. *)
Theorem average_load_integer_quotient c :
  size (members c) <> 0%nat ->
  AverageLoad c =
    inr (f64_ceil (round64 (inject_Z (round_int (partitionCount c / Z.of_nat (size (members c))))
                            * LoadFactor (config c)))) /\
  (0 <= partitionCount c <= 2 ^ 53 -> (0 <= LoadFactor (config c))%Q ->
   (inject_Z (partitionCount c / Z.of_nat (size (members c))) * LoadFactor (config c)
      <= inject_Z (2 ^ 53))%Q ->
   exists a, AverageLoad c = inr (Finite (inject_Z a)) /\
     Qceiling (inject_Z (partitionCount c / Z.of_nat (size (members c)))
               * LoadFactor (config c)) - 1 <= a <=
     Qceiling (inject_Z (partitionCount c / Z.of_nat (size (members c)))
               * LoadFactor (config c))) /\
  (forall pid idx parts lds parts' lds',
     distributeWithLoad c pid idx parts lds = inr (parts', lds') ->
     exists avg m, AverageLoad c = inr avg /\ parts' = <[pid := m]> parts /\
       lds' = <[Name m := round_int (default 0 (lds !! Name m) + 1)]> lds /\
       Zle_f64 (round_int (default 0 (lds !! Name m) + 1)) avg = true).
Proof.
  intros Hm.
  assert (HA : AverageLoad c =
    inr (f64_ceil (round64 (inject_Z (round_int (partitionCount c / Z.of_nat (size (members c))))
                            * LoadFactor (config c))))).
  { unfold AverageLoad. case_decide; [lia|done]. }
  split; [done|]. split.
  - intros HP HF Hx.
    set (n := Z.of_nat (size (members c))) in *.
    assert (Hq : 0 <= partitionCount c / n <= partitionCount c).
    { split; [apply Z.div_pos; lia|]. apply Z.div_le_upper_bound; [lia|]. nia. }
    rewrite round_int_exact in HA by lia.
    assert (H0 : (0 <= inject_Z (partitionCount c / n) * LoadFactor (config c))%Q).
    { apply Qmult_le_0_compat; [|done].
      change (inject_Z 0 <= inject_Z (partitionCount c / n))%Q. rewrite <- Zle_Qle. lia. }
    destruct (round64_ceil _ H0 Hx) as (a & Ha & Hb).
    exists a. rewrite HA, Ha. done.
  - intros pid idx parts lds parts' lds' Hd. by apply distributeWithLoad_inr in Hd.
Qed.

Lemma average_load_integer_quotient_witness :
  size (members (new_or (blank cfgABC) (New zsort (Some [mA; mB; mC]) cfgABC))) <> 0%nat /\
  AverageLoad (new_or (blank cfgABC) (New zsort (Some [mA; mB; mC]) cfgABC)) =
    inr (Finite (inject_Z 3)).
Proof.
  assert (Hm : size (members (new_or (blank cfgABC)
                 (New zsort (Some [mA; mB; mC]) cfgABC))) <> 0%nat)
    by (vm_compute; discriminate).
  split; [exact Hm|].
  rewrite (proj1 (average_load_integer_quotient _ Hm)). vm_compute. reflexivity.
Defined.

(** C2 fails as stated, on both counts. With [P = 5], two members and
    [F = 1.5], [New] succeeds and [AverageLoad] is [ceil(2 * 1.5) = 3],
    whereas [ceil((5 / 2) * 1.5) = 4]. With [P = 10], one member and [F]
    the [float64] nearest to [1.1] (a little above [1.1]), the product
    [10 * F] rounds to [11], so [AverageLoad] is [11], whereas
    [ceil((10 / 1) * F) = 12]. *)
Lemma average_load_not_real_quotient :
  (exists c, New zsort (Some [mA; mB]) cfgAB = inr c /\
     AverageLoad c = inr (Finite (inject_Z 3)) /\ real_cap c = 4) /\
  (exists c, New zsort (Some [mA]) cfgFloat = inr c /\
     AverageLoad c = inr (Finite (inject_Z 11)) /\ real_cap c = 12).
Proof.
  split.
  - exists (new_or (blank cfgAB) (New zsort (Some [mA; mB]) cfgAB)).
    split; [apply new_or_inr; vm_compute; exact I|].
    split; vm_compute; reflexivity.
  - exists (new_or (blank cfgFloat) (New zsort (Some [mA]) cfgFloat)).
    split; [apply new_or_inr; vm_compute; exact I|].
    split; vm_compute; reflexivity.
Qed.

(** ** [Remove], field by field *)

Lemma fold_delete_lookup {A} (hs : list Z) (rg : gmap Z A) k :
  fold_left (fun rg h => delete h rg) hs rg !! k =
  if decide (k ∈ hs) then None else rg !! k.
Proof.
  revert rg. induction hs as [|h hs IH]; intros rg; cbn [fold_left].
  - case_decide as H; [set_solver|done].
  - rewrite IH. destruct (decide (k ∈ hs)) as [H1|H1];
      destruct (decide (k ∈ h :: hs)) as [H2|H2].
    + done.
    + set_solver.
    + assert (k = h) as -> by set_solver. by rewrite lookup_delete_eq.
    + rewrite lookup_delete_ne; [done|set_solver].
Qed.

Lemma Remove_fields c name c' r :
  Remove c name = (c', r) -> is_Some (members c !! name) ->
  let hs := map (fun i => hasher c (replicaKey name i)) (replicas c) in
  let c1 := set_ring_members c (fold_left (fun ss h => delSlice h ss) hs (sortedSet c))
              (fold_left (fun rg h => delete h rg) hs (ring c)) (delete name (members c)) in
  (size (members c1) = 0%nat /\ c' = set_partitions c1 ∅ /\ r = None) \/
  (size (members c1) <> 0%nat /\ distributePartitions c1 = (c', r)).
Proof.
  intros H [x Hx]. cbv zeta. unfold Remove in H. rewrite Hx in H.
  match type of H with context [fold_left ?F _ _] =>
    assert (E : forall l rg0 ss0, fold_left F l (rg0, ss0) =
      (fold_left (fun rg h => delete h rg) (map (fun i => hasher c (replicaKey name i)) l) rg0,
       fold_left (fun ss h => delSlice h ss) (map (fun i => hasher c (replicaKey name i)) l) ss0))
  end.
  { induction l as [|i l IH]; intros rg0 ss0; simpl; [done|]. apply IH. }
  rewrite E in H. cbv beta iota zeta in H.
  case_decide as Hs.
  - left. injection H as <- <-. done.
  - right. done.
Qed.

(** ** C4 *)

(** C4 (as the code has it): an [Add] or [Remove] that panics during
    distribution leaves the partition table and the load map as they were,
    but the rest of the mutation stays in place ([add] and the removal loop
    run before [distributePartitions], and nothing undoes them): a failed
    [Add] leaves exactly the instance [add] built, new member, ring points
    and sorted points included; a failed [Remove] leaves the name deleted
    from the registry, its ring points deleted from the ring map and each of
    them passed to [delSlice] on the sorted points. *)
Theorem failed_mutation_keeps_table (sortSlice : list Z -> list Z) :
  (forall c m c' p, Add sortSlice c m = (c', Some p) ->
     c' = add sortSlice c m /\ partitions c' = partitions c /\ loads c' = loads c /\
     members c' = <[Name m := m]> (members c)) /\
  (forall c name c' p, Remove c name = (c', Some p) ->
     let hs := map (fun i => hasher c (replicaKey name i)) (replicas c) in
     c' = set_ring_members c (fold_left (fun ss h => delSlice h ss) hs (sortedSet c))
            (fold_left (fun rg h => delete h rg) hs (ring c)) (delete name (members c)) /\
     partitions c' = partitions c /\ loads c' = loads c /\
     members c' = delete name (members c) /\
     (forall h, h ∈ hs -> ring c' !! h = None)).
Proof.
  split.
  - intros c m c' p HAdd.
    destruct (Add_cases _ _ _ _ _ HAdd) as [(_ & _ & ?)|(_ & Hd)]; [done|].
    apply distributePartitions_panic in Hd as ->.
    destruct (add_frame sortSlice c m) as (Hm & _ & Hp & Hl & _). done.
  - intros c name c' p HRem hs.
    assert (Hin : is_Some (members c !! name)).
    { unfold Remove in HRem. destruct (members c !! name); [done|discriminate]. }
    destruct (Remove_fields c name c' _ HRem Hin) as [(_ & _ & ?)|(_ & Hd)]; [done|].
    apply distributePartitions_panic in Hd as ->.
    split; [done|]. split; [done|]. split; [done|]. split; [done|].
    intros h Hh. simpl. rewrite fold_delete_lookup. by rewrite decide_True.
Qed.

Lemma failed_mutation_keeps_table_witness :
  let c0 := new_or (blank cfgTight) (New zsort None cfgTight) in
  Add zsort c0 mA = ((Add zsort c0 mA).1, Some NotEnoughRoom) /\
  partitions (Add zsort c0 mA).1 = partitions c0.
Proof.
  intros c0.
  assert (H : Add zsort c0 mA = ((Add zsort c0 mA).1, Some NotEnoughRoom)).
  { destruct (Add zsort c0 mA) as [c1 p] eqn:E. simpl.
    assert (Hp : p = (Add zsort c0 mA).2) by (rewrite E; done).
    rewrite Hp. vm_compute. reflexivity. }
  split; [exact H|].
  exact (proj1 (proj2 (proj1 (failed_mutation_keeps_table zsort) c0 mA _ _ H))).
Defined.

(** C4 fails as stated: the aborted [Add] installs the new member. *)
Lemma failed_add_installs_member :
  let c0 := new_or (blank cfgTight) (New zsort None cfgTight) in
  New zsort None cfgTight = inr c0 /\
  (Add zsort c0 mA).2 = Some NotEnoughRoom /\
  members c0 = ∅ /\ (Add zsort c0 mA).1.(members) !! "A"%string = Some mA.
Proof.
  intros c0. split; [apply new_or_inr; vm_compute; exact I|].
  split; [vm_compute; reflexivity|]. split; vm_compute; reflexivity.
Qed.

(** ** C5 *)

(** A ring of at most one point never takes a partition: the [count] check
    fires before the first point is read. *)
Lemma short_ring_never_assigns c pid idx parts lds r :
  (length (sortedSet c) <= 1)%nat -> distributeWithLoad c pid idx parts lds <> inr r.
Proof.
  intros Hlen. unfold distributeWithLoad. destruct (AverageLoad c); [done|].
  destruct (length (sortedSet c)) as [|[|n]] eqn:E; simpl; [done| |lia].
  rewrite E. done.
Qed.

(** C5 (code_bug): the walk gives up after [len(sortedSet) - 1] points. A
    single member [A] with one ring point ([R = 1], [P = 1], [F = 1]) has
    cap 1 and load 0, yet [distributeWithLoad] panics "not enough room" and
    so does [New]. *)
Theorem walk_gives_up_one_point_early :
  let c1 := add zsort (mkConsistent cfgOnePoint fnv64 [] 1 ∅ ∅ ∅ ∅) mA in
  AverageLoad c1 = inr (Finite (inject_Z 1)) /\ length (sortedSet c1) = 1%nat /\
  (forall i, sortedSet c1 !! 0%nat = Some i -> ring c1 !! i = Some mA) /\
  distributeWithLoad c1 0 0 ∅ ∅ = inl NotEnoughRoom /\
  New zsort (Some [mA]) cfgOnePoint = inl NotEnoughRoom.
Proof.
  intros c1. split; [vm_compute; reflexivity|].
  split; [vm_compute; reflexivity|].
  split; [intros i; vm_compute; intros [= <-]; vm_compute; reflexivity|].
  split; vm_compute; reflexivity.
Qed.

(** ** C7 *)

(** C7: once an [Add] has returned normally, a second [Add] of a member
    with the same name returns at once and leaves the whole instance (ring,
    sorted points, registry, table, loads) as it is. *)
Theorem Add_idempotent (sortSlice : list Z -> list Z) c m c' m' :
  Add sortSlice c m = (c', None) -> Name m' = Name m ->
  Add sortSlice c' m' = (c', None).
Proof.
  intros HAdd Hname. unfold Add at 1. rewrite Hname.
  destruct (Add_cases _ _ _ _ _ HAdd) as [([x Hx] & -> & _)|(_ & Hd)].
  - by rewrite Hx.
  - destruct (distributePartitions_frame _ _ _ Hd) as (Hm & _).
    rewrite Hm, (proj1 (add_frame sortSlice c m)), lookup_insert_eq. done.
Qed.

Lemma Add_idempotent_witness :
  let c0 := new_or (blank cfgABC) (New zsort (Some [mA; mB; mC]) cfgABC) in
  let c1 := (Add zsort c0 mD).1 in
  Add zsort c0 mD = (c1, None) /\ Add zsort c1 (mkMember "D") = (c1, None).
Proof.
  intros c0 c1.
  assert (H : Add zsort c0 mD = (c1, None))
    by (apply pair_no_panic; vm_compute; reflexivity).
  split; [exact H|]. exact (Add_idempotent zsort c0 mD c1 (mkMember "D") H eq_refl).
Defined.

(** ** C8 *)

(** C8 (as the code has it): [Remove] of an unknown name returns the
    instance unchanged; [Remove] of the last member resets the table to
    empty without running distribution, after which [GetPartitionOwner]
    reports no owner for every partition and [LocateKey] reports no owner
    for every key, provided [P > 0]. *)
Theorem Remove_absent_or_last :
  (forall c name, members c !! name = None -> Remove c name = (c, None)) /\
  (forall c name m c', members c = {[name := m]} -> Remove c name = (c', None) ->
     (exists ss rg, c' = set_partitions (set_ring_members c ss rg ∅) ∅) /\
     members c' = ∅ /\ partitions c' = ∅ /\
     (forall i, GetPartitionOwner c' i = None) /\
     (forall key, partitionCount c <> 0 -> LocateKey c' key = inr None)).
Proof.
  split.
  - intros c name H. unfold Remove. by rewrite H.
  - intros c name m c' Hm HRem.
    destruct (Remove_cases _ _ _ _ HRem)
      as [(Hn & _)|(rg & ss & _ & [(_ & Hc' & _)|(Hs & _)])].
    + rewrite Hm, lookup_singleton_eq in Hn. done.
    + simpl in Hc'. rewrite Hm, delete_singleton_eq in Hc'. subst c'.
      split; [by exists ss, rg|]. split; [done|]. split; [done|].
      split; [intros i; unfold GetPartitionOwner; simpl; apply lookup_empty|].
      intros key Hp. unfold LocateKey, FindPartitionID. simpl.
      case_decide; [done|]. unfold GetPartitionOwner. simpl. by rewrite lookup_empty.
    + simpl in Hs. rewrite Hm, delete_singleton_eq, map_size_empty in Hs. done.
Qed.

Lemma Remove_absent_or_last_witness :
  let c0 := new_or (blank cfgABC) (New zsort (Some [mA]) cfgABC) in
  members c0 = {["A"%string := mA]} /\ Remove c0 "A" = ((Remove c0 "A").1, None) /\
  GetPartitionOwner (Remove c0 "A").1 3 = None.
Proof.
  intros c0.
  assert (Hm : members c0 = {["A"%string := mA]}) by (vm_compute; reflexivity).
  assert (H : Remove c0 "A" = ((Remove c0 "A").1, None))
    by (apply pair_no_panic; vm_compute; reflexivity).
  split; [exact Hm|]. split; [exact H|].
  exact (proj1 (proj2 (proj2 (proj2 (proj2 Remove_absent_or_last _ _ _ _ Hm H)))) 3).
Defined.

(** C8 fails as stated at [P = 0]: [LocateKey] takes the key modulo zero. *)
Lemma locate_after_last_remove_zero_partitions :
  let c0 := new_or (blank cfgNoPartitions) (New zsort (Some [mA]) cfgNoPartitions) in
  New zsort (Some [mA]) cfgNoPartitions = inr c0 /\
  Remove c0 "A" = ((Remove c0 "A").1, None) /\
  LocateKey (Remove c0 "A").1 [] = inl IntegerDivideByZero.
Proof.
  intros c0. split; [apply new_or_inr; vm_compute; exact I|].
  split; [apply pair_no_panic|]; vm_compute; reflexivity.
Qed.

(** ** C10 *)

(** C10 (as the code has it): with no members [AverageLoad] divides by zero;
    [New] with a non-nil empty member list distributes at once and so panics
    whenever [P > 0] (and succeeds with an empty table when [P = 0]); [New]
    with a nil list skips distribution and gives an empty instance; a nil
    hasher panics in every case. *)
Theorem empty_member_set_behaviour (sortSlice : list Z -> list Z) :
  (forall c, size (members c) = 0%nat -> AverageLoad c = inl IntegerDivideByZero) /\
  (forall cfg h, cfgHasher cfg = Some h -> to_uint64 (PartitionCount cfg) <> 0 ->
     New sortSlice (Some []) cfg = inl IntegerDivideByZero) /\
  (forall cfg h, cfgHasher cfg = Some h -> to_uint64 (PartitionCount cfg) = 0 ->
     exists c, New sortSlice (Some []) cfg = inr c /\ members c = ∅ /\ partitions c = ∅) /\
  (forall cfg h, cfgHasher cfg = Some h ->
     exists c, New sortSlice None cfg = inr c /\ members c = ∅ /\ partitions c = ∅ /\
       sortedSet c = [] /\ ring c = ∅) /\
  (forall ms cfg, cfgHasher cfg = None -> New sortSlice ms cfg = inl HasherCannotBeNil).
Proof.
  assert (Havg : forall c, size (members c) = 0%nat -> AverageLoad c = inl IntegerDivideByZero).
  { intros c Hc. unfold AverageLoad. rewrite Hc. done. }
  split; [exact Havg|]. split; [|split; [|split]].
  - intros cfg h Hh Hp. unfold New. rewrite Hh. simpl.
    unfold distributePartitions, partitionIDs. simpl.
    destruct (Z.to_nat (to_uint64 (PartitionCount cfg))) as [|n] eqn:E.
    { exfalso. unfold to_uint64 in *.
      pose proof (Z.mod_pos_bound (PartitionCount cfg) (2 ^ 64) ltac:(lia)). lia. }
    simpl. unfold distributeWithLoad. rewrite Havg; [done|]. simpl. apply map_size_empty.
  - intros cfg h Hh Hp. unfold New. rewrite Hh. simpl.
    unfold distributePartitions, partitionIDs. simpl. rewrite Hp. simpl.
    eexists. split; [reflexivity|]. done.
  - intros cfg h Hh. unfold New. rewrite Hh. simpl. eexists. split; [reflexivity|]. done.
  - intros ms cfg Hh. unfold New. by rewrite Hh.
Qed.

Lemma empty_member_set_behaviour_witness :
  New zsort (Some []) cfgABC = inl IntegerDivideByZero /\
  (exists c, New zsort None cfgABC = inr c /\ members c = ∅ /\ partitions c = ∅ /\
     sortedSet c = [] /\ ring c = ∅) /\
  New zsort (Some [mA]) (mkConfig None 7 3 1) = inl HasherCannotBeNil.
Proof.
  split; [exact (proj1 (proj2 (empty_member_set_behaviour zsort)) cfgABC fnv64
                    eq_refl ltac:(vm_compute; discriminate))|].
  split; [exact (proj1 (proj2 (proj2 (proj2 (empty_member_set_behaviour zsort)))) cfgABC fnv64 eq_refl)|].
  exact (proj2 (proj2 (proj2 (proj2 (empty_member_set_behaviour zsort)))) (Some [mA]) (mkConfig None 7 3 1) eq_refl).
Defined.

(** C10 fails as stated at [P = 0]: [New] with a non-nil empty list then
    returns normally. *)
Lemma new_empty_list_zero_partitions :
  exists c, New zsort (Some []) cfgNoPartitions = inr c.
Proof.
  eexists. apply new_or_inr with (dflt := blank cfgNoPartitions). vm_compute. exact I.
Qed.

(** ** C9 *)

Lemma sorts_ext (s1 s2 : list Z -> list Z) :
  sorts s1 -> sorts s2 -> forall l, s1 l = s2 l.
Proof.
  intros H1 H2 l. destruct (H1 l) as [P1 S1]. destruct (H2 l) as [P2 S2].
  apply (Sorted_unique Z.le); [done|done|]. by rewrite P1, P2.
Qed.

Section SorterExt.
Variables s1 s2 : list Z -> list Z.
Hypothesis Hs : forall l, s1 l = s2 l.

Lemma add_ext c m : add s1 c m = add s2 c m.
Proof. unfold add. destruct (fold_left _ _ _) as [rg ss]. by rewrite Hs. Qed.

Lemma fold_add_ext ms c : fold_left (add s1) ms c = fold_left (add s2) ms c.
Proof.
  revert c. induction ms as [|m ms IH]; intros c; simpl; [done|].
  rewrite add_ext. apply IH.
Qed.

Lemma Add_ext c m : Add s1 c m = Add s2 c m.
Proof. unfold Add. by rewrite add_ext. Qed.

Lemma run_ext c ops : run s1 c ops = run s2 c ops.
Proof.
  revert c. induction ops as [|op ops IH]; intros c; simpl; [done|].
  assert (E : step s1 c op = step s2 c op) by (destruct op; simpl; [apply Add_ext|done]).
  rewrite E. destruct (step s2 c op) as [c' [p|]]; [done|]. apply IH.
Qed.

Lemma New_ext ms cfg : New s1 ms cfg = New s2 ms cfg.
Proof. unfold New. destruct (cfgHasher cfg); [|done]. by rewrite fold_add_ext. Qed.
End SorterExt.

Lemma zsort_sorts : sorts zsort.
Proof.
  intros l. split; [apply merge_sort_Permutation|].
  apply (Sorted_merge_sort Z.le).
Qed.

Lemma zsort_rev_sorts : sorts (fun l => zsort (rev l)).
Proof.
  intros l. split.
  - unfold zsort. rewrite merge_sort_Permutation. symmetry. apply Permutation_rev.
  - apply (Sorted_merge_sort Z.le).
Qed.

(** C9: the result of [New] and of any sequence of [Add]/[Remove] calls
    (table, loads, ring, registry) depends only on the configuration, the
    hasher, the members and the order of the calls: any two implementations
    of the ascending [sort.Slice] give the same instance. *)
Theorem construction_deterministic (s1 s2 : list Z -> list Z) ms cfg :
  sorts s1 -> sorts s2 ->
  New s1 ms cfg = New s2 ms cfg /\
  (forall c ops, run s1 c ops = run s2 c ops).
Proof.
  intros H1 H2. pose proof (sorts_ext _ _ H1 H2) as Hs.
  split; [apply New_ext, Hs|]. intros c ops. apply run_ext, Hs.
Qed.

Lemma construction_deterministic_witness :
  New zsort (Some [mA; mB; mC]) cfgABC = New (fun l => zsort (rev l)) (Some [mA; mB; mC]) cfgABC.
Proof.
  exact (proj1 (construction_deterministic zsort (fun l => zsort (rev l)) (Some [mA; mB; mC])
                  cfgABC zsort_sorts zsort_rev_sorts)).
Defined.

(** ** Witnesses of C1 and C3 *)

Lemma loads_within_average_load_witness :
  let c0 := new_or (blank cfgABC) (New zsort (Some [mA; mB; mC]) cfgABC) in
  capped c0 /\ capped (Add zsort c0 mD).1 /\ capped (Remove c0 "B").1.
Proof.
  intros c0.
  assert (HN : New zsort (Some [mA; mB; mC]) cfgABC = inr c0)
    by (apply new_or_inr; vm_compute; exact I).
  assert (Hpc : partitionCount c0 = 7) by (vm_compute; reflexivity).
  assert (Hp : 0 <= partitionCount c0 <= 2 ^ 53) by (rewrite Hpc; lia).
  destruct (loads_within_average_load zsort) as (H1 & H2 & H3).
  split; [|split].
  - apply (H1 _ _ _ HN); [vm_compute; discriminate|lia].
  - apply (H2 c0 mD); [exact Hp|vm_compute; reflexivity|].
    apply pair_no_panic. vm_compute. reflexivity.
  - apply (H3 c0 "B"%string); [exact Hp|vm_compute; eexists; reflexivity| |].
    + apply pair_no_panic. vm_compute. reflexivity.
    + vm_compute. discriminate.
Defined.

Lemma table_complete_after_ops_witness :
  let c0 := new_or (blank cfgABC) (New zsort (Some [mA; mB; mC]) cfgABC) in
  let ops := [OpAdd mD; OpRemove "B"; OpAdd mB] in
  exists m, GetPartitionOwner (run zsort c0 ops).1 (to_int 6) = Some m.
Proof.
  intros c0 ops.
  assert (HN : New zsort (Some [mA; mB; mC]) cfgABC = inr c0)
    by (apply new_or_inr; vm_compute; exact I).
  assert (Hr : run zsort c0 ops = ((run zsort c0 ops).1, None))
    by (apply pair_no_panic; vm_compute; reflexivity).
  apply (proj1 (table_complete_after_ops zsort _ _ c0 ops _ HN Hr
                  ltac:(vm_compute; discriminate))).
  vm_compute. split; [discriminate|reflexivity].
Defined.

(** ** A partition count beyond [2^53] *)

Lemma walk_ring c avg pid fuel count idx parts lds parts' lds' :
  walk c avg pid fuel count idx parts lds = inr (parts', lds') ->
  exists i m, ring c !! i = Some m /\ parts' = <[pid := m]> parts.
Proof.
  revert count idx.
  induction fuel as [|fuel IH]; intros count idx H; simpl in H; [discriminate|].
  destruct (length (sortedSet c) <=? S count)%nat; [discriminate|].
  destruct (sortedSet c !! idx) as [i|]; [|discriminate].
  destruct (ring c !! i) as [m|] eqn:Hm; [|discriminate].
  destruct (Zle_f64 (round_int (default 0 (lds !! Name m) + 1)) avg).
  - injection H as <- <-. by exists i, m.
  - eapply IH. exact H.
Qed.

Lemma distributeFrom_ring (P : Member -> Prop) c ids parts lds parts' lds' :
  (forall i m, ring c !! i = Some m -> P m) ->
  map_Forall (fun _ => P) parts ->
  distributeFrom c ids parts lds = inr (parts', lds') -> map_Forall (fun _ => P) parts'.
Proof.
  intros HP. revert parts lds.
  induction ids as [|pid ids IH]; intros parts lds Hparts H; simpl in H.
  - by injection H as <- <-.
  - destruct (distributeWithLoad c _ _ parts lds) as [p|[p1 l1]] eqn:Hd; [discriminate|].
    apply (IH p1 l1); [|done].
    unfold distributeWithLoad in Hd. destruct (AverageLoad c); [discriminate|].
    apply walk_ring in Hd as (i & m & Hi & ->).
    apply map_Forall_insert_2; [by apply (HP i)|done].
Qed.

Lemma New_Some_unfold sortSlice ms cfg h :
  cfgHasher cfg = Some h ->
  New sortSlice (Some ms) cfg =
    match distributePartitions
            (fold_left (add sortSlice) ms
               (mkConsistent cfg h [] (to_uint64 (PartitionCount cfg)) ∅ ∅ ∅ ∅)) with
    | (c2, None) => inr c2
    | (_, Some p) => inl p
    end.
Proof. intros H. unfold New. rewrite H. reflexivity. Qed.

(** On a ring of at least two points that all belong to [m], with a cap of
    at least [2^53], every partition goes to [m]: its [float64] load never
    passes [2^53], so the cap test always succeeds. *)
Lemma distributeFrom_one_owner c avg m ids parts lds :
  AverageLoad c = inr avg -> (2 <= length (sortedSet c))%nat ->
  (forall i x, sortedSet c !! i = Some x -> ring c !! x = Some m) ->
  Zle_f64 (2 ^ 53) avg = true ->
  (forall n l, lds !! n = Some l -> n = Name m /\ 0 <= l <= 2 ^ 53) ->
  exists parts' lds', distributeFrom c ids parts lds = inr (parts', lds').
Proof.
  intros Havg Hlen Hring Hcap. revert parts lds.
  induction ids as [|pid ids IH]; intros parts lds Hlds; cbn [distributeFrom].
  - by exists parts, lds.
  - set (idx := search (sortedSet c) (hasher c (PutUint64 pid))).
    set (idx' := if (length (sortedSet c) <=? idx)%nat then O else idx).
    assert (Hidx : (idx' < length (sortedSet c))%nat).
    { unfold idx'. destruct (Nat.leb_spec (length (sortedSet c)) idx); lia. }
    destruct (lookup_lt_is_Some_2 _ _ Hidx) as [x Hx].
    assert (Hl0 : 0 <= default 0 (lds !! Name m) <= 2 ^ 53).
    { destruct (lds !! Name m) eqn:E; simpl; [|lia]. by apply (Hlds (Name m)). }
    assert (Hr : round_int (default 0 (lds !! Name m) + 1) =
                 Z.min (default 0 (lds !! Name m) + 1) (2 ^ 53)).
    { rewrite <- (Z.min_l (default 0 (lds !! Name m)) (2 ^ 53)) at 1 by lia.
      apply round_int_succ_min. lia. }
    rewrite (distributeWithLoad_first c avg (to_int pid) idx' parts lds x m Hlen Havg Hx
               (Hring _ _ Hx)).
    2:{ apply (Zle_f64_mono (2 ^ 53)); [lia|exact Hcap]. }
    apply IH. intros n l Hn. destruct (decide (Name m = n)) as [<-|Hne].
    + rewrite lookup_insert_eq in Hn. injection Hn as <-. split; [done|]. rewrite Hr. lia.
    + rewrite lookup_insert_ne in Hn by done. by apply Hlds.
Qed.

(** [New] with one member, [P = 2^55], [R = 2] and [F = 0.5] succeeds: the
    member gets all [2^55] partitions, while its load stops at [2^53]; the
    cap is [2^54] either way. *)
Lemma huge_instance :
  exists c, New zsort (Some [mA]) cfgHuge = inr c /\
    size (members c) = 1%nat /\ partitionCount c = 2 ^ 55 /\
    AverageLoad c = inr (Finite (inject_Z (2 ^ 54))) /\ real_cap c = 2 ^ 54 /\
    loads c = {["A"%string := 2 ^ 53]} /\
    Z.of_nat (owned_count "A" (partitions c)) = 2 ^ 55.
Proof.
  set (c1 := fold_left (add zsort) [mA]
               (mkConsistent cfgHuge fnv64 [] (to_uint64 (PartitionCount cfgHuge)) ∅ ∅ ∅ ∅)).
  assert (HA : AverageLoad c1 = inr (Finite (inject_Z (2 ^ 54)))) by (vm_compute; reflexivity).
  assert (Hlen : length (sortedSet c1) = 2%nat) by (vm_compute; reflexivity).
  assert (Hring : Forall (fun x => ring c1 !! x = Some mA) (sortedSet c1))
    by (vm_compute; repeat constructor).
  assert (Hown : map_Forall (fun _ m => Name m = "A"%string) (ring c1))
    by (apply (bool_decide_unpack _); vm_compute; exact I).
  assert (Hpc : partitionCount c1 = 2 ^ 55) by (vm_compute; reflexivity).
  assert (Hm1 : size (members c1) = 1%nat) by (vm_compute; reflexivity).
  assert (Hrc : real_cap c1 = 2 ^ 54) by (vm_compute; reflexivity).
  destruct (distributeFrom_one_owner c1 _ mA (partitionIDs c1) ∅ ∅ HA
              ltac:(rewrite Hlen; lia) (fun i x Hx => Forall_lookup_1 _ _ _ _ Hring Hx)
              ltac:(vm_compute; reflexivity)
              ltac:(intros n l Hn; by rewrite lookup_empty in Hn)) as (parts & lds & Hd).
  assert (HdP : distributePartitions c1 = (set_table c1 parts lds, None))
    by (unfold distributePartitions; rewrite Hd; reflexivity).
  assert (Hparts : map_Forall (fun _ m => Name m = "A"%string) parts).
  { apply (distributeFrom_ring (fun m => Name m = "A"%string) c1 (partitionIDs c1) ∅ ∅ parts lds).
    - intros i m Hi. exact (Hown i m Hi).
    - apply map_Forall_empty.
    - exact Hd. }
  destruct (distributePartitions_ok c1 _ ltac:(rewrite Hm1; lia) ltac:(rewrite Hpc; lia) HdP)
    as (avg & Havg & (Hl & Hnone & _) & Hsize & _ & _).
  rewrite HA in Havg. injection Havg as <-.
  change (partitions (set_table c1 parts lds)) with parts in Hl, Hnone, Hsize.
  change (loads (set_table c1 parts lds)) with lds in Hl, Hnone.
  assert (HA' : Z.of_nat (owned_count "A" parts) = 2 ^ 55).
  { unfold owned_count. rewrite map_filter_id.
    - rewrite Hsize, Hpc. apply Z2Nat.id. lia.
    - intros i m Hi. exact (Hparts i m Hi). }
  exists (set_table c1 parts lds).
  split; [rewrite (New_Some_unfold zsort [mA] cfgHuge fnv64 eq_refl); fold c1; by rewrite HdP|].
  split; [exact Hm1|]. split; [exact Hpc|].
  split; [rewrite AverageLoad_set_table; exact HA|].
  split; [rewrite real_cap_set_table; exact Hrc|].
  split; [|exact HA'].
  change (lds = {["A"%string := 2 ^ 53]}). apply map_eq. intros n.
  destruct (decide (n = "A"%string)) as [->|Hne].
  - rewrite lookup_singleton_eq. destruct (lds !! "A"%string) as [l|] eqn:E.
    + destruct (Hl _ _ E) as (_ & _ & ->). rewrite HA'. done.
    + apply Hnone in E. rewrite E in HA'. lia.
  - rewrite lookup_singleton_ne by congruence.
    destruct (lds !! n) as [l|] eqn:E; [|done].
    destruct (Hl _ _ E) as (Hl1 & _ & Hln).
    assert (H0 : owned_count n parts = 0%nat).
    { unfold owned_count. rewrite map_empty_filter_2; [apply map_size_empty|].
      intros i m Hi. simpl. rewrite (Hparts i m Hi). congruence. }
    rewrite H0 in Hln. lia.
Qed.

(** Counterexample to C1 without the bound on [P]: [New] with one member,
    [P = 2^55], [R = 2] and [F = 0.5] succeeds; the cap [ceil((P / n) * F)]
    is [2^54], but the member owns all [2^55] partitions in the table, while
    its [float64] load stops at [2^53]. *)
Lemma huge_partition_count_exceeds_cap :
  exists c, New zsort (Some [mA]) cfgHuge = inr c /\ size (members c) <> 0%nat /\
    AverageLoad c = inr (Finite (inject_Z (2 ^ 54))) /\ real_cap c = 2 ^ 54 /\
    loads c !! "A"%string = Some (2 ^ 53) /\
    Z.of_nat (owned_count "A" (partitions c)) = 2 ^ 55 /\
    real_cap c < Z.of_nat (owned_count "A" (partitions c)).
Proof.
  destruct huge_instance as (c & HN & Hm & _ & HA & Hrc & Hl & Ho).
  exists c. rewrite Hl, lookup_singleton_eq, Ho, Hrc.
  split; [exact HN|]. split; [rewrite Hm; discriminate|]. split; [exact HA|].
  split; [reflexivity|]. split; [reflexivity|]. split; [reflexivity|lia].
Qed.

(** Counterexample to C3 without the bound on [P]: the same instance,
    before any [Add] or [Remove], has [P = 2^55] partitions, and its loads
    add up to [2^53]. *)
Lemma huge_partition_count_total_load :
  exists c, New zsort (Some [mA]) cfgHuge = inr c /\ run zsort c [] = (c, None) /\
    size (members c) <> 0%nat /\ partitionCount c = 2 ^ 55 /\
    total_load (loads c) = 2 ^ 53.
Proof.
  destruct huge_instance as (c & HN & Hm & Hpc & _ & _ & Hl & _).
  exists c. rewrite Hl. unfold total_load. rewrite map_fold_singleton.
  split; [exact HN|]. split; [reflexivity|]. split; [rewrite Hm; discriminate|].
  split; [exact Hpc|lia].
Qed.

(** ** C6 *)

Lemma scan_fold c o l ok keys km :
  exists ok' km',
    fold_left (scan_step c (Some o)) l (inr (ok, keys, km)) =
      inr (ok', keys ++ map (fun nm : string * Member => hasher c (list_byte_of_string nm.1)) l, km') /\
    (In (Name o) (map fst l) -> ok' = hasher c (list_byte_of_string (Name o))) /\
    (~ In (Name o) (map fst l) -> ok' = ok) /\
    (forall k m, km' !! k = Some m ->
       km !! k = Some m \/ exists name, In (name, m) l /\ k = hasher c (list_byte_of_string name)) /\
    (forall k, is_Some (km !! k) -> is_Some (km' !! k)) /\
    (forall nm, In nm l -> is_Some (km' !! hasher c (list_byte_of_string nm.1))).
Proof.
  revert ok keys km. induction l as [|nm l IH]; intros ok keys km; simpl.
  - exists ok, km. rewrite app_nil_r. split; [done|]. split; [done|]. split; [done|].
    split; [by left|]. split; [done|]. done.
  - destruct (IH (if String.eqb nm.1 (Name o) then hasher c (list_byte_of_string nm.1) else ok)
                 (keys ++ [hasher c (list_byte_of_string nm.1)])
                 (<[hasher c (list_byte_of_string nm.1) := nm.2]> km))
      as (ok' & km' & Hf & Hok & Hok' & Hkm & Hpres & Hcov).
    exists ok', km'. split; [rewrite Hf, <- app_assoc; done|].
    split; [|split; [|split; [|split]]].
    + intros Hin. destruct (in_dec string_dec (Name o) (map fst l)) as [Hl|Hl]; [by apply Hok|].
      destruct Hin as [Heq|Hin]; [|done].
      rewrite (Hok' Hl), Heq, String.eqb_refl. done.
    + intros Hin. rewrite Hok' by (intros Hl; apply Hin; by right).
      destruct (String.eqb_spec nm.1 (Name o)) as [Heq|]; [|done].
      exfalso. apply Hin. by left.
    + intros k m Hk. destruct (Hkm k m Hk) as [Hk1|(name & Hin & ->)].
      * destruct (Z.eq_dec k (hasher c (list_byte_of_string nm.1))) as [->|Hne].
        -- rewrite lookup_insert_eq in Hk1. injection Hk1 as <-.
           right. exists nm.1. split; [left; by destruct nm|done].
        -- rewrite lookup_insert_ne in Hk1 by congruence. by left.
      * right. exists name. split; [by right|done].
    + intros k Hk. apply Hpres. apply lookup_insert_is_Some'. by right.
    + intros nm' [<-|Hin]; [|by apply Hcov].
      apply Hpres. apply lookup_insert_is_Some'. by left.
Qed.

Lemma next_idx_lt len idx : (0 < len)%nat -> (next_idx len idx < len)%nat.
Proof. unfold next_idx. destruct (Nat.leb_spec len (S idx)); lia. Qed.

Lemma length_positions len k idx : length (positions len k idx) = k.
Proof. revert idx. induction k; intros idx; simpl; auto. Qed.

Lemma positions_lt len k idx p :
  (0 < len)%nat -> In p (positions len k idx) -> (p < len)%nat.
Proof.
  intros Hl. revert idx. induction k as [|k IH]; intros idx; simpl; [done|].
  intros [<-|Hin]; [by apply next_idx_lt|]. by apply (IH (next_idx len idx)).
Qed.

Lemma positions_map len k idx :
  (idx < len)%nat -> (k <= len)%nat -> positions len k idx = map (posn len idx) (seq 0 k).
Proof.
  revert idx. induction k as [|k IH]; intros idx Hi Hk; [done|].
  simpl. rewrite IH by (try apply next_idx_lt; lia). f_equal.
  - unfold next_idx, posn. destruct (Nat.leb_spec len (S idx)), (Nat.ltb_spec (idx + 1 + 0) len); lia.
  - rewrite <- seq_shift, map_map. apply map_ext_in. intros j Hj. apply in_seq in Hj.
    unfold next_idx, posn.
    destruct (Nat.leb_spec len (S idx));
      [destruct (Nat.ltb_spec (0 + 1 + j) len), (Nat.ltb_spec (idx + 1 + S j) len)
      |destruct (Nat.ltb_spec (S idx + 1 + j) len), (Nat.ltb_spec (idx + 1 + S j) len)]; lia.
Qed.

Lemma positions_NoDup len k idx :
  (idx < len)%nat -> (k <= len)%nat -> NoDup (positions len k idx).
Proof.
  intros Hi Hk. rewrite positions_map by done.
  apply NoDup_ListNoDup, NoDup_map_NoDup_ForallPairs; [|apply seq_NoDup].
  intros a b Ha Hb. apply in_seq in Ha, Hb. unfold posn.
  destruct (Nat.ltb_spec (idx + 1 + a) len), (Nat.ltb_spec (idx + 1 + b) len); lia.
Qed.

Lemma positions_skip_idx len k idx :
  (idx < len)%nat -> (k < len)%nat -> ~ In idx (positions len k idx).
Proof.
  intros Hi Hk. rewrite positions_map by lia. intros Hin.
  apply in_map_iff in Hin as (j & Hj & Hin). apply in_seq in Hin. revert Hj. unfold posn.
  destruct (Nat.ltb_spec (idx + 1 + j) len); lia.
Qed.

Lemma positions_wrap len k idx :
  (0 < len)%nat -> (len <= idx)%nat -> positions len k idx = positions len k (len - 1).
Proof.
  intros Hl Hi. destruct k as [|k]; [done|]. simpl.
  assert (E : next_idx len idx = next_idx len (len - 1)).
  { unfold next_idx. destruct (Nat.leb_spec len (S idx)), (Nat.leb_spec len (S (len - 1))); lia. }
  by rewrite E.
Qed.

Lemma collectBackups_positions keys kmems k idx :
  (forall p, In p (positions (length keys) k idx) ->
     exists key m, keys !! p = Some key /\ kmems !! key = Some m) ->
  collectBackups keys kmems k idx = inr (map (pick keys kmems) (positions (length keys) k idx)).
Proof.
  revert idx. induction k as [|k IH]; intros idx Hv; [done|]. simpl.
  fold (next_idx (length keys) idx).
  destruct (Hv (next_idx (length keys) idx) ltac:(by left)) as (key & m & Hk & Hm).
  rewrite Hk, Hm, IH by (intros p Hp; apply Hv; by right).
  do 2 f_equal. unfold pick. by rewrite Hk, Hm.
Qed.

Lemma findOwner_le keys x : (findOwner keys x <= length keys)%nat.
Proof. induction keys as [|k keys IH]; simpl; [lia|]. destruct (Z.eqb_spec k x); lia. Qed.

Lemma findOwner_lookup keys x : In x keys -> keys !! findOwner keys x = Some x.
Proof.
  induction keys as [|k keys IH]; simpl; [done|].
  destruct (Z.eqb_spec k x) as [->|Hne]; [done|].
  intros [->|Hin]; [done|]. by apply IH.
Qed.

(** C6: a backup count larger than [len(members) - 1] is refused with
    [ErrInsufficientMemberCount] whatever the partition, before any walk;
    for a partition with an owner and [0 <= n <= len(members) - 1], with
    the hasher injective on member names (and each member registered under
    its own name, as [Add] does), the call returns [n] pairwise distinct
    members, none of them the owner. [sort.Slice] is only assumed to
    permute the keys. *)
Theorem backups_distinct_non_owner (sortSlice : list Z -> list Z) :
  (forall l, sortSlice l ≡ₚ l) ->
  forall c partID n,
    (Z.of_nat (size (members c)) - 1 < n ->
       GetPartitionBackups sortSlice c partID n = inr ([], Some ErrInsufficientMemberCount)) /\
    (map_Forall (fun name m => Name m = name) (members c) ->
     member_hashes_distinct c ->
     forall owner, GetPartitionOwner c partID = Some owner ->
     0 <= n <= Z.of_nat (size (members c)) - 1 ->
     exists res, GetPartitionBackups sortSlice c partID n = inr (res, None) /\
       length res = Z.to_nat n /\ NoDup res /\ owner ∉ res).
Proof.
  intros Hsort c partID n. split.
  - intros Hn. unfold GetPartitionBackups.
    destruct (Z.gtb_spec n (Z.of_nat (size (members c)) - 1)); [done|lia].
  - intros Hwf Hdist owner Hown Hn. unfold GetPartitionBackups.
    destruct (Z.gtb_spec n (Z.of_nat (size (members c)) - 1)); [lia|].
    unfold scanMembers. rewrite Hown.
    destruct (scan_fold c owner (map_to_list (members c)) 0 [] ∅)
      as (ok & km & Hf & Hok & _ & Hkm & _ & Hcov).
    rewrite Hf, app_nil_l.
    set (keys0 := map _ (map_to_list (members c))).
    set (keys := sortSlice keys0).
    assert (Hperm : keys ≡ₚ keys0) by apply Hsort.
    assert (Hnd : NoDup keys).
    { apply NoDup_ListNoDup. apply (Permutation_NoDup (Permutation_sym Hperm)).
      apply NoDup_ListNoDup. exact Hdist. }
    assert (Hlen : length keys = size (members c)).
    { rewrite (Permutation_length Hperm). unfold keys0.
      rewrite length_map. apply length_map_to_list. }
    set (k := Z.to_nat n).
    assert (Hk : (k < length keys)%nat) by (unfold k; rewrite Hlen; lia).
    set (idx := findOwner keys ok).
    set (idx0 := if (idx <? length keys)%nat then idx else (length keys - 1)%nat).
    assert (Hi0 : (idx0 < length keys)%nat)
      by (unfold idx0; destruct (Nat.ltb_spec idx (length keys)); lia).
    assert (Hpos : positions (length keys) k idx = positions (length keys) k idx0).
    { unfold idx0. destruct (Nat.ltb_spec idx (length keys)); [done|].
      apply positions_wrap; lia. }
    assert (Hvalid : forall p, In p (positions (length keys) k idx) ->
              exists key mb, keys !! p = Some key /\ km !! key = Some mb).
    { intros p Hp. apply positions_lt in Hp; [|lia].
      destruct (proj2 (lookup_lt_is_Some keys p) Hp) as [key Hkey].
      exists key.
      assert (Hin : In key keys0).
      { apply (Permutation_in _ Hperm). apply list_elem_of_In.
        eapply list_elem_of_lookup_2. exact Hkey. }
      unfold keys0 in Hin. apply in_map_iff in Hin as (nm & <- & Hnm).
      destruct (Hcov nm Hnm) as [mb Hmb]. by exists mb. }
    assert (Hkm' : forall key mb, km !! key = Some mb ->
              members c !! Name mb = Some mb /\ key = hasher c (list_byte_of_string (Name mb))).
    { intros key mb Hkey. destruct (Hkm key mb Hkey) as [He|(name & Hin & ->)].
      - by rewrite lookup_empty in He.
      - apply list_elem_of_In, elem_of_map_to_list in Hin.
        rewrite (Hwf name mb Hin). done. }
    rewrite (collectBackups_positions _ _ _ _ Hvalid).
    eexists. split; [reflexivity|].
    split; [by rewrite length_map, length_positions|].
    split.
    + apply NoDup_ListNoDup, NoDup_map_NoDup_ForallPairs.
      * intros p1 p2 Hp1 Hp2 Heq.
        destruct (Hvalid p1 Hp1) as (k1 & m1 & Hk1 & Hm1).
        destruct (Hvalid p2 Hp2) as (k2 & m2 & Hk2 & Hm2).
        unfold pick in Heq. rewrite Hk1, Hm1, Hk2, Hm2 in Heq. subst m2.
        destruct (Hkm' _ _ Hm1) as (_ & ->). destruct (Hkm' _ _ Hm2) as (_ & ->).
        eapply NoDup_lookup; eauto.
      * rewrite Hpos. apply NoDup_ListNoDup. apply positions_NoDup; lia.
    + intros Hin. apply list_elem_of_In, in_map_iff in Hin as (p & Hpo & Hp).
      destruct (Hvalid p Hp) as (kp & mp & Hkp & Hmp).
      unfold pick in Hpo. rewrite Hkp, Hmp in Hpo. subst mp.
      destruct (Hkm' _ _ Hmp) as (Hmem & Hkp').
      assert (Hok' : ok = hasher c (list_byte_of_string (Name owner))).
      { apply Hok. apply in_map_iff. exists (Name owner, owner). split; [done|].
        apply list_elem_of_In, elem_of_map_to_list. done. }
      assert (Hidx : keys !! idx = Some ok).
      { unfold idx. apply findOwner_lookup. rewrite Hok', <- Hkp'.
        apply list_elem_of_In. eapply list_elem_of_lookup_2. exact Hkp. }
      assert (p = idx) as ->.
      { eapply NoDup_lookup; [exact Hnd|exact Hkp|]. rewrite Hidx, Hok', Hkp'. done. }
      apply lookup_lt_Some in Hidx.
      exact (positions_skip_idx (length keys) k idx Hidx Hk Hp).
Qed.

Lemma backups_distinct_non_owner_witness :
  let c0 := new_or (blank cfgABC) (New zsort (Some [mA; mB; mC]) cfgABC) in
  let owner := match GetPartitionOwner c0 4 with Some o => o | None => mA end in
  exists res, GetPartitionBackups zsort c0 4 2 = inr (res, None) /\
    length res = 2%nat /\ NoDup res /\ owner ∉ res.
Proof.
  intros c0 owner.
  assert (Hs : size (members c0) = 3%nat) by (vm_compute; reflexivity).
  refine (proj2 (backups_distinct_non_owner zsort (fun l => proj1 (zsort_sorts l)) c0 4 2)
            _ _ owner _ _).
  - apply (bool_decide_unpack _). vm_compute. exact I.
  - unfold member_hashes_distinct. apply (bool_decide_unpack _). vm_compute. exact I.
  - vm_compute. reflexivity.
  - rewrite Hs. lia.
Defined.

(** * Further properties of the code *)

(** ** [sort.Search] *)

Lemma sorted_lookup_le s k1 k2 x1 x2 :
  Sorted Z.le s -> (k1 <= k2)%nat -> s !! k1 = Some x1 -> s !! k2 = Some x2 -> x1 <= x2.
Proof.
  intros Hs. apply (Sorted_StronglySorted _) in Hs. revert k1 k2.
  induction Hs as [|x s Hs IH Hx]; intros k1 k2 Hk H1 H2; [by rewrite lookup_nil in H1|].
  destruct k1 as [|k1], k2 as [|k2]; simpl in H1, H2;
    [injection H1 as <-; injection H2 as <-; lia| |lia|].
  - injection H1 as <-. exact (Forall_lookup_1 _ _ _ _ Hx H2).
  - apply (IH k1 k2); [lia|done|done].
Qed.

Lemma div2_between i j : (i < j)%nat -> (i <= Nat.div2 (i + j) < j)%nat.
Proof.
  intros H. pose proof (Nat.div2_odd (i + j)).
  destruct (Nat.odd (i + j)); simpl in *; lia.
Qed.

(** The loop of [sort.Search] keeps every index below [i] mapped to a point
    [< key] and every index from [j] on to a point [>= key]; it returns when
    [i = j]. *)
Lemma search_loop_spec s key fuel i j :
  Sorted Z.le s -> (i <= j <= length s)%nat -> (j - i < fuel)%nat ->
  (forall k x, s !! k = Some x -> (k < i)%nat -> x < key) ->
  (forall k x, s !! k = Some x -> (j <= k)%nat -> key <= x) ->
  (search_loop s key fuel i j <= length s)%nat /\
  (forall k x, s !! k = Some x -> (k < search_loop s key fuel i j)%nat -> x < key) /\
  (forall k x, s !! k = Some x -> (search_loop s key fuel i j <= k)%nat -> key <= x).
Proof.
  intros Hs. revert i j.
  induction fuel as [|fuel IH]; intros i j Hij Hf Hlo Hhi; [lia|]. simpl.
  destruct (Nat.ltb_spec i j) as [Hlt|Hge].
  2:{ assert (i = j) as <- by lia. split; [lia|]. split; [exact Hlo|exact Hhi]. }
  pose proof (div2_between i j Hlt) as Hh.
  destruct (lookup_lt_is_Some_2 s (Nat.div2 (i + j)) ltac:(lia)) as [x Hx].
  rewrite Hx. destruct (Z.leb_spec key x) as [Hk|Hk].
  - apply IH; [lia|lia|exact Hlo|].
    intros k y Hy Hjk. pose proof (sorted_lookup_le s _ _ _ _ Hs Hjk Hx Hy). lia.
  - apply IH; [lia|lia| |exact Hhi].
    intros k y Hy Hki. pose proof (sorted_lookup_le s k (Nat.div2 (i + j)) _ _ Hs ltac:(lia) Hy Hx). lia.
Qed.

(** On a sorted slice, [search] returns the least index whose point is
    [>= key], or [len(s)] when there is none: the points at or after it are
    exactly those [>= key]. *)
Theorem search_least_index s key :
  Sorted Z.le s ->
  (search s key <= length s)%nat /\
  forall j x, s !! j = Some x -> (key <= x <-> (search s key <= j)%nat).
Proof.
  intros Hs. unfold search.
  destruct (search_loop_spec s key (S (length s)) 0 (length s) Hs ltac:(lia) ltac:(lia))
    as (Hle & Hlo & Hhi).
  - intros k x _ Hk. lia.
  - intros k x Hx Hk. apply lookup_lt_Some in Hx. lia.
  - split; [exact Hle|]. intros j x Hx. split.
    + intros Hk. destruct (Nat.le_gt_cases (search_loop s key (S (length s)) 0 (length s)) j)
        as [|Hj]; [done|]. pose proof (Hlo j x Hx Hj). lia.
    + intros Hj. exact (Hhi j x Hx Hj).
Qed.

Lemma search_least_index_witness :
  Sorted Z.le [2; 5; 9] /\ search [2; 5; 9] 6 = 2%nat.
Proof.
  assert (H : Sorted Z.le [2; 5; 9]) by (repeat constructor; lia).
  split; [exact H|].
  destruct (search_least_index [2; 5; 9] 6 H) as [_ Hs].
  pose proof (proj1 (Hs 2%nat 9 eq_refl) ltac:(lia)).
  assert (~ (6 <= 5)) by lia. rewrite (Hs 1%nat 5 eq_refl) in H1. lia.
Defined.

(** ** [delSlice] *)

Lemma delSlice_sublist_aux v s : delSlice v s `sublist_of` s.
Proof.
  induction s as [s IH] using (induction_ltof1 _ (@length Z)).
  destruct s as [|x s]; simpl; [done|].
  destruct (x =? v).
  - destruct s as [|y s]; [apply sublist_nil_l|].
    apply sublist_cons, sublist_skip, IH. unfold ltof. simpl. lia.
  - apply sublist_skip, IH. unfold ltof. simpl. lia.
Qed.

Lemma StronglySorted_sublist (l1 l2 : list Z) :
  l1 `sublist_of` l2 -> StronglySorted Z.le l2 -> StronglySorted Z.le l1.
Proof.
  induction 1 as [|x l1 l2 Hsub IH|x l1 l2 Hsub IH]; intros H; [done| |].
  - apply StronglySorted_inv in H as [H1 H2]. constructor; [by apply IH|].
    apply Forall_forall. intros y Hy. rewrite Forall_forall in H2. apply H2.
    eapply elem_of_sublist; [exact Hy|exact Hsub].
  - apply StronglySorted_inv in H as [H1 _]. by apply IH.
Qed.

Lemma Sorted_sublist (l1 l2 : list Z) :
  l1 `sublist_of` l2 -> Sorted Z.le l2 -> Sorted Z.le l1.
Proof.
  intros Hs H. apply StronglySorted_Sorted. eapply StronglySorted_sublist; [exact Hs|].
  by apply (Sorted_StronglySorted _).
Qed.

(** [delSlice] only ever drops points: what it returns is a sublist of its
    input, so a sorted ring stays sorted. *)
Theorem delSlice_sublist_sorted v s :
  Sorted Z.le s -> delSlice v s `sublist_of` s /\ Sorted Z.le (delSlice v s).
Proof.
  intros Hs. split; [apply delSlice_sublist_aux|].
  eapply Sorted_sublist; [apply delSlice_sublist_aux|exact Hs].
Qed.

Lemma delSlice_sublist_sorted_witness :
  Sorted Z.le [1; 4; 4; 7] /\ delSlice 4 [1; 4; 4; 7] = [1; 4; 7].
Proof.
  assert (H : Sorted Z.le [1; 4; 4; 7]) by (repeat constructor; lia).
  split; [exact H|]. pose proof (delSlice_sublist_sorted 4 _ H). reflexivity.
Defined.

Lemma delSlice_filter_aux v s : NoDup s -> delSlice v s = filter (fun x => x <> v) s.
Proof.
  induction s as [s IH] using (induction_ltof1 _ (@length Z)).
  destruct s as [|x s]; simpl; [done|]. intros Hnd.
  apply NoDup_cons in Hnd as [Hx Hnd].
  destruct (Z.eqb_spec x v) as [->|Hne].
  - rewrite filter_cons_False by auto.
    destruct s as [|y s]; [done|].
    apply NoDup_cons in Hnd as [Hy Hnd].
    assert (y <> v) by (intros ->; apply Hx; left).
    rewrite filter_cons_True by done. f_equal. apply IH; [unfold ltof; simpl; lia|done].
  - rewrite filter_cons_True by done. f_equal. apply IH; [unfold ltof; simpl; lia|done].
Qed.

(** On a slice without duplicates, [delSlice val] removes exactly the
    occurrence of [val]. *)
Theorem delSlice_removes_value v s :
  NoDup s -> delSlice v s = filter (fun x => x <> v) s.
Proof. apply delSlice_filter_aux. Qed.

Lemma delSlice_removes_value_witness :
  NoDup [3; 1; 2] /\ delSlice 1 [3; 1; 2] = [3; 2].
Proof.
  assert (H : NoDup [3; 1; 2]) by (apply (bool_decide_unpack _); vm_compute; exact I).
  split; [exact H|]. rewrite (delSlice_removes_value 1 _ H). reflexivity.
Defined.

(** When two copies of [val] are adjacent (two ring points with the same
    hash), [delSlice val] removes only the first: after a removal the loop
    index still moves on, past the copy that slid into place. *)
Theorem delSlice_keeps_adjacent_copy v s1 s2 :
  ~ In v s1 -> delSlice v (s1 ++ v :: v :: s2) = s1 ++ v :: delSlice v s2.
Proof.
  induction s1 as [|x s1 IH]; intros Hin; simpl.
  - by rewrite Z.eqb_refl.
  - destruct (Z.eqb_spec x v) as [->|Hne]; [exfalso; apply Hin; by left|].
    f_equal. apply IH. intros H. apply Hin. by right.
Qed.

Lemma delSlice_keeps_adjacent_copy_witness :
  delSlice 5 ([1] ++ 5 :: 5 :: [8]) = [1; 5; 8].
Proof.
  rewrite (delSlice_keeps_adjacent_copy 5 [1] [8]) by (simpl; lia). reflexivity.
Defined.

(** ** Byte encodings *)

Lemma byte_of_Z_val z : Z.of_N (Byte.to_N (byte_of_Z z)) = z mod 256.
Proof.
  unfold byte_of_Z. pose proof (Z.mod_pos_bound z 256 ltac:(lia)).
  destruct (Byte.of_N (Z.to_N (z mod 256))) as [b|] eqn:E.
  - apply Byte.to_of_N in E. rewrite E. lia.
  - apply Byte.of_N_None_iff in E. lia.
Qed.

Lemma mod_mul_256 x b : 0 < b -> x mod (256 * b) = x mod 256 + 256 * ((x / 256) mod b).
Proof.
  intros Hb. rewrite Z.mod_eq by lia. rewrite <- Z.div_div by lia.
  pose proof (Z.div_mod x 256 ltac:(lia)) as H1.
  pose proof (Z.div_mod (x / 256) b ltac:(lia)) as H2.
  rewrite (Z.mod_eq (x / 256) b) by lia. lia.
Qed.

Lemma Uint64_bytes v j n :
  Uint64 (map (fun k : nat => byte_of_Z (Z.shiftr v (8 * Z.of_nat k))) (seq j n)) =
  Z.shiftr v (8 * Z.of_nat j) mod 2 ^ (8 * Z.of_nat n).
Proof.
  revert j. induction n as [|n IH]; intros j; simpl.
  - by rewrite Z.mod_1_r.
  - rewrite byte_of_Z_val, IH.
    replace (Z.shiftr v (8 * Z.of_nat (S j)))
      with (Z.shiftr v (8 * Z.of_nat j) / 256).
    2:{ change 256 with (2 ^ 8). rewrite <- Z.shiftr_div_pow2 by lia.
        rewrite Z.shiftr_shiftr by lia. f_equal. lia. }
    replace (2 ^ (8 * Z.of_nat (S n))) with (256 * 2 ^ (8 * Z.of_nat n)).
    2:{ replace (8 * Z.of_nat (S n)) with (8 + 8 * Z.of_nat n) by lia.
        rewrite Z.pow_add_r by lia. done. }
    rewrite mod_mul_256 by lia. done.
Qed.

(** The little-endian encoding of [distributePartitions] decodes back to
    the partition id modulo [2^64]; so distinct 64-bit partition ids are
    encoded as distinct 8-byte keys for the hasher. *)
Theorem PutUint64_roundtrip :
  (forall v, Uint64 (PutUint64 v) = v mod 2 ^ 64) /\
  (forall a b, 0 <= a < 2 ^ 64 -> 0 <= b < 2 ^ 64 -> PutUint64 a = PutUint64 b -> a = b).
Proof.
  assert (Hr : forall v, Uint64 (PutUint64 v) = v mod 2 ^ 64).
  { intros v. unfold PutUint64.
    change [0; 1; 2; 3; 4; 5; 6; 7] with (map Z.of_nat (seq 0 8)).
    rewrite map_map, Uint64_bytes. by rewrite Z.shiftr_0_r. }
  split; [exact Hr|].
  intros a b Ha Hb H. apply (f_equal Uint64) in H. rewrite !Hr in H.
  rewrite !Z.mod_small in H by lia. done.
Qed.

Lemma PutUint64_roundtrip_witness :
  PutUint64 258 <> PutUint64 2.
Proof.
  intros H. apply (proj2 PutUint64_roundtrip) in H; lia.
Defined.

Lemma decimal_aux_app fuel n acc :
  (n < fuel)%nat -> decimal_aux fuel n acc = decimal_aux fuel n [] ++ acc.
Proof.
  revert n acc. induction fuel as [|fuel IH]; intros n acc Hn; [lia|]. simpl.
  destruct (Nat.ltb_spec n 10); [done|].
  assert (Hq : (n / 10 < fuel)%nat).
  { pose proof (Nat.div_lt n 10 ltac:(lia) ltac:(lia)). lia. }
  rewrite (IH _ _ Hq), (IH _ [_] Hq), <- app_assoc. done.
Qed.

Lemma decimal_digit_val n :
  (n < 10)%nat -> Z.of_N (Byte.to_N (byte_of_Z (48 + Z.of_nat n))) - 48 = Z.of_nat n.
Proof. intros Hn. rewrite byte_of_Z_val, Z.mod_small; lia. Qed.

Lemma decimal_aux_value fuel n :
  (n < fuel)%nat -> digits_value (decimal_aux fuel n []) = Z.of_nat n.
Proof.
  unfold digits_value.
  revert n. induction fuel as [|fuel IH]; intros n Hn; [lia|]. cbn [decimal_aux].
  pose proof (Nat.mod_upper_bound n 10 ltac:(lia)) as Hm.
  pose proof (Nat.div_mod n 10 ltac:(lia)) as Hd.
  destruct (Nat.ltb_spec n 10).
  - cbn [fold_left]. rewrite decimal_digit_val by done.
    rewrite (Nat.mod_small n 10) by done. lia.
  - assert (Hq : (n / 10 < fuel)%nat).
    { pose proof (Nat.div_lt n 10 ltac:(lia) ltac:(lia)). lia. }
    rewrite decimal_aux_app by done. rewrite fold_left_app, IH by done.
    cbn [fold_left]. rewrite decimal_digit_val by done. lia.
Qed.

(** [fmt.Sprintf("%d", i)] reads back as [i], so for one member the
    replica keys [name + "0"], [name + "1"], ... are pairwise distinct. *)
Theorem replicaKey_index_injective :
  (forall n, digits_value (decimal n) = Z.of_nat n) /\
  (forall name i j, replicaKey name i = replicaKey name j -> i = j).
Proof.
  assert (Hv : forall n, digits_value (decimal n) = Z.of_nat n)
    by (intros n; apply decimal_aux_value; lia).
  split; [exact Hv|].
  intros name i j H. unfold replicaKey in H. apply app_inv_head in H.
  apply (f_equal digits_value) in H. rewrite !Hv in H. lia.
Qed.

Lemma replicaKey_index_injective_witness :
  replicaKey "node" 12 <> replicaKey "node" 21.
Proof.
  intros H. apply (proj2 replicaKey_index_injective) in H. lia.
Defined.

Lemma list_byte_of_string_app s1 s2 :
  list_byte_of_string (s1 ++ s2) = list_byte_of_string s1 ++ list_byte_of_string s2.
Proof.
  induction s1 as [|a s1 IH]; [done|]. unfold list_byte_of_string in *. simpl.
  by rewrite IH.
Qed.

(** Replica keys of different members can coincide: member [name ++ "d"]
    (one extra digit [d] from 1 to 9) has at replica [j] (a digit) the key
    of member [name] at replica [10 * d + j]. With a replication factor
    above ten both put a point at the same hash, and the later [add]
    overwrites the other's ring entry. *)
Theorem replicaKey_cross_member_collision name d j :
  (1 <= d <= 9)%nat -> (j <= 9)%nat ->
  replicaKey (name ++ String (Ascii.ascii_of_nat (48 + d)) EmptyString) j =
  replicaKey name (10 * d + j).
Proof.
  intros Hd Hj. unfold replicaKey.
  rewrite list_byte_of_string_app, <- app_assoc. f_equal.
  do 10 (destruct d as [|d]; [try lia; do 10 (destruct j as [|j]; [reflexivity|]); lia|]).
  lia.
Qed.

Lemma replicaKey_cross_member_collision_witness :
  replicaKey "node1" 0 = replicaKey "node" 10.
Proof. exact (replicaKey_cross_member_collision "node" 1 0 ltac:(lia) ltac:(lia)). Defined.

(** ** Locating a key *)

(** For a partition count in [(0, 2^63]], [FindPartitionID] returns
    [hash(key) mod P], a valid partition index. *)
Theorem FindPartitionID_in_range c key :
  0 < partitionCount c <= 2 ^ 63 ->
  FindPartitionID c key = inr (hasher c key mod partitionCount c) /\
  0 <= hasher c key mod partitionCount c < partitionCount c.
Proof.
  intros Hp. pose proof (Z.mod_pos_bound (hasher c key) (partitionCount c) ltac:(lia)).
  unfold FindPartitionID. case_decide; [lia|]. split; [|lia].
  unfold to_int. rewrite Z.mod_small by lia.
  destruct (Z.ltb_spec (hasher c key mod partitionCount c) (2 ^ 63)); [done|lia].
Qed.

Lemma FindPartitionID_in_range_witness :
  let c := new_or (blank cfgABC) (New zsort (Some [mA; mB; mC]) cfgABC) in
  FindPartitionID c [x41] = inr (hasher c [x41] mod 7).
Proof.
  intros c. assert (Hp : partitionCount c = 7) by (vm_compute; reflexivity).
  rewrite <- Hp. apply (proj1 (FindPartitionID_in_range c [x41] ltac:(rewrite Hp; lia))).
Defined.

(** ** One partition *)

(** A partition goes to the member owning the ring point the walk starts
    from whenever that member is below the cap (its load plus one, added in
    [float64], is at most [AverageLoad]) on a ring of at least two points:
    this is plain consistent hashing when loads allow it. *)
Theorem distributeWithLoad_natural_owner c pid idx parts lds avg i m :
  (2 <= length (sortedSet c))%nat -> AverageLoad c = inr avg ->
  sortedSet c !! idx = Some i -> ring c !! i = Some m ->
  Zle_f64 (round_int (default 0 (lds !! Name m) + 1)) avg = true ->
  distributeWithLoad c pid idx parts lds =
    inr (<[pid := m]> parts, <[Name m := round_int (default 0 (lds !! Name m) + 1)]> lds).
Proof.
  apply distributeWithLoad_first.
Qed.

Lemma distributeWithLoad_natural_owner_witness :
  let c := new_or (blank cfgABC) (New zsort (Some [mA; mB; mC]) cfgABC) in
  exists r, distributeWithLoad c 0 0 ∅ ∅ = inr r.
Proof.
  intros c.
  destruct (sortedSet c !! 0%nat) as [i|] eqn:Hi; [|vm_compute in Hi; discriminate].
  destruct (ring c !! i) as [m|] eqn:Hm.
  2:{ exfalso. revert Hm. vm_compute in Hi. injection Hi as <-. vm_compute. discriminate. }
  eexists. apply (distributeWithLoad_natural_owner c 0 0 ∅ ∅ (Finite (inject_Z 3)) i m);
    [vm_compute; lia|vm_compute; reflexivity|exact Hi|exact Hm|].
  rewrite lookup_empty. vm_compute. reflexivity.
Defined.

(** ** Removing twice *)

(** [Remove] is idempotent: once a [Remove] has returned normally, removing
    the same name again returns at once and leaves the instance as it is. *)
Theorem Remove_idempotent c name c' :
  Remove c name = (c', None) -> Remove c' name = (c', None).
Proof.
  intros HRem. unfold Remove at 1.
  destruct (Remove_cases c name c' None HRem)
    as [(Hn & -> & _)|(rg & ss & _ & [(_ & -> & _)|(_ & Hd)])].
  - by rewrite Hn.
  - simpl. by rewrite lookup_delete_eq.
  - destruct (distributePartitions_frame _ _ _ Hd) as (Hm & _).
    rewrite Hm. simpl. by rewrite lookup_delete_eq.
Qed.

Lemma Remove_idempotent_witness :
  let c0 := new_or (blank cfgABC) (New zsort (Some [mA; mB; mC]) cfgABC) in
  Remove (Remove c0 "B").1 "B" = ((Remove c0 "B").1, None).
Proof.
  intros c0. apply (Remove_idempotent c0 "B").
  apply pair_no_panic. vm_compute. reflexivity.
Defined.

(** ** States reached without a panic: ring and table invariants *)

Lemma member_eq (m1 m2 : Member) : Name m1 = Name m2 -> m1 = m2.
Proof. destruct m1, m2. simpl. by intros ->. Qed.

Lemma lookup_insert_member (ms : gmap string Member) m m' :
  ms !! Name m' = Some m' -> <[Name m := m]> ms !! Name m' = Some m'.
Proof.
  intros H. destruct (decide (Name m = Name m')) as [E|E].
  - rewrite E, lookup_insert_eq. f_equal. by apply member_eq.
  - by rewrite lookup_insert_ne.
Qed.

Lemma fold_insert_lookup {A} (hs : list Z) (x : A) (rg : gmap Z A) k :
  fold_left (fun rg h => <[h := x]> rg) hs rg !! k =
  if decide (k ∈ hs) then Some x else rg !! k.
Proof.
  revert rg. induction hs as [|h hs IH]; intros rg; cbn [fold_left].
  - case_decide as H; [set_solver|done].
  - rewrite IH. destruct (decide (k ∈ hs)) as [H1|H1];
      destruct (decide (k ∈ h :: hs)) as [H2|H2].
    + done.
    + set_solver.
    + assert (k = h) as -> by set_solver. by rewrite lookup_insert_eq.
    + rewrite lookup_insert_ne; [done|set_solver].
Qed.

Lemma add_fields sortSlice c m :
  let hs := map (fun i => hasher c (replicaKey (Name m) i)) (replicas c) in
  hasher (add sortSlice c m) = hasher c /\
  ring (add sortSlice c m) = fold_left (fun rg h => <[h := m]> rg) hs (ring c) /\
  sortedSet (add sortSlice c m) = sortSlice (sortedSet c ++ hs).
Proof.
  cbv zeta. unfold add.
  match goal with |- context [fold_left ?F _ _] =>
    assert (E : forall l rg0 ss0, fold_left F l (rg0, ss0) =
      (fold_left (fun rg h => <[h := m]> rg)
         (map (fun i => hasher c (replicaKey (Name m) i)) l) rg0,
       ss0 ++ map (fun i => hasher c (replicaKey (Name m) i)) l))
  end.
  { induction l as [|i l IH]; intros rg0 ss0; simpl; [by rewrite app_nil_r|].
    rewrite IH, <- app_assoc. done. }
  rewrite E. done.
Qed.

Lemma distributePartitions_inv c c' :
  ring_inv c -> distributePartitions c = (c', None) -> ring_inv c' /\ owners_inv c'.
Proof.
  intros Hr (parts & lds & Hd & ->) % distributePartitions_fields.
  split; [exact Hr|]. unfold owners_inv. simpl.
  eapply (distributeFrom_ring (fun m => members c !! Name m = Some m));
    [|apply map_Forall_empty|exact Hd].
  intros i m Hi. exact (proj1 (proj2 Hr i m Hi)).
Qed.

Lemma in_replicas c i : In i (replicas c) <-> (i < Z.to_nat (ReplicationFactor (config c)))%nat.
Proof. unfold replicas. rewrite in_seq. lia. Qed.

Lemma add_inv sortSlice c m :
  ring_inv c -> owners_inv c -> ring_inv (add sortSlice c m) /\ owners_inv (add sortSlice c m).
Proof.
  intros [Hms Hrg] Ho.
  destruct (add_frame sortSlice c m) as (Hm & _ & Hp & _ & Hcfg).
  destruct (add_fields sortSlice c m) as (Hh & Hr & _).
  split; [split|].
  - rewrite Hm. apply map_Forall_insert_2; [done|exact Hms].
  - intros k m' Hk. rewrite Hr, fold_insert_lookup in Hk. rewrite Hm, Hcfg, Hh.
    case_decide as Hin.
    + injection Hk as <-. split; [by rewrite lookup_insert_eq|].
      apply list_elem_of_In, in_map_iff in Hin as (i & <- & Hi).
      apply in_replicas in Hi. by exists i.
    + destruct (Hrg k m' Hk) as [Hl Hi]. split; [by apply lookup_insert_member|exact Hi].
  - unfold owners_inv. rewrite Hp, Hm. intros pid m' H.
    apply lookup_insert_member. exact (Ho pid m' H).
Qed.

Lemma ring_inv_delete c name ss :
  ring_inv c ->
  ring_inv (set_ring_members c ss
    (fold_left (fun rg h => delete h rg) (map (fun i => hasher c (replicaKey name i)) (replicas c)) (ring c))
    (delete name (members c))).
Proof.
  intros [Hms Hrg]. split.
  - cbn [members set_ring_members]. apply map_Forall_delete. exact Hms.
  - intros k m Hk. cbn [ring members config hasher set_ring_members] in *.
    rewrite fold_delete_lookup in Hk. case_decide as Hin; [discriminate|].
    destruct (Hrg k m Hk) as [Hl (i & Hi & ->)].
    assert (Name m <> name).
    { intros <-. apply Hin. apply list_elem_of_In, in_map_iff. exists i.
      split; [done|]. by apply in_replicas. }
    split; [by rewrite lookup_delete_ne|]. by exists i.
Qed.

Lemma Remove_inv c name c' :
  ring_inv c -> owners_inv c -> Remove c name = (c', None) -> ring_inv c' /\ owners_inv c'.
Proof.
  intros Hr Ho H.
  destruct (members c !! name) as [x|] eqn:Hx.
  2:{ unfold Remove in H. rewrite Hx in H. injection H as <-. done. }
  destruct (Remove_fields c name c' None H ltac:(by exists x)) as [(_ & -> & _)|(_ & Hd)].
  - split; [apply ring_inv_delete, Hr|apply map_Forall_empty].
  - eapply distributePartitions_inv; [|exact Hd]. apply ring_inv_delete, Hr.
Qed.

Lemma fold_add_inv sortSlice l c :
  ring_inv c -> owners_inv c ->
  ring_inv (fold_left (add sortSlice) l c) /\ owners_inv (fold_left (add sortSlice) l c).
Proof.
  revert c. induction l as [|m l IH]; intros c H1 H2; [done|]. simpl.
  destruct (add_inv sortSlice c m H1 H2). by apply IH.
Qed.

Lemma New_inv sortSlice ms cfg c : New sortSlice ms cfg = inr c -> ring_inv c /\ owners_inv c.
Proof.
  unfold New. destruct (cfgHasher cfg) as [h|]; [|discriminate]. cbv zeta.
  match goal with |- context [fold_left (add sortSlice) _ ?c0] =>
    destruct (fold_add_inv sortSlice (default [] ms) c0) as [H1 H2]
  end.
  { split; apply map_Forall_empty. }
  { apply map_Forall_empty. }
  destruct ms as [ms|].
  - destruct (distributePartitions _) as [c2 [p|]] eqn:Hd; [discriminate|].
    intros [= <-]. exact (distributePartitions_inv _ _ H1 Hd).
  - intros [= <-]. done.
Qed.

Lemma step_inv sortSlice c op c' :
  ring_inv c -> owners_inv c -> step sortSlice c op = (c', None) -> ring_inv c' /\ owners_inv c'.
Proof.
  intros H1 H2. destruct op as [m|name]; simpl.
  - intros HAdd. destruct (Add_cases _ _ _ _ _ HAdd) as [(_ & -> & _)|(_ & Hd)]; [done|].
    destruct (add_inv sortSlice c m H1 H2) as [H1' _].
    exact (distributePartitions_inv _ _ H1' Hd).
  - by apply Remove_inv.
Qed.

Lemma run_inv sortSlice c ops c' :
  ring_inv c -> owners_inv c -> run sortSlice c ops = (c', None) -> ring_inv c' /\ owners_inv c'.
Proof.
  revert c. induction ops as [|op ops IH]; intros c H1 H2; simpl.
  - by intros [= <-].
  - destruct (step sortSlice c op) as [c1 [p|]] eqn:Hs; [discriminate|].
    destruct (step_inv sortSlice c op c1 H1 H2 Hs). by apply IH.
Qed.

Lemma reachable_inv sortSlice c :
  reachable sortSlice c -> ring_inv c /\ owners_inv c /\ reach_inv c.
Proof.
  intros (ms & cfg & c0 & ops & HN & Hrun).
  destruct (New_inv _ _ _ _ HN) as [H1 H2].
  destruct (run_inv _ _ _ _ H1 H2 Hrun). split; [done|split; [done|]].
  exact (reach_inv_run _ _ _ _ (reach_inv_New _ _ _ _ HN) Hrun).
Qed.

Lemma fold_delSlice_sorted hs ss :
  Sorted Z.le ss -> Sorted Z.le (fold_left (fun ss h => delSlice h ss) hs ss).
Proof.
  revert ss. induction hs as [|h hs IH]; intros ss H; simpl; [done|].
  apply IH. eapply Sorted_sublist; [apply delSlice_sublist_aux|exact H].
Qed.

Lemma fold_add_sorted sortSlice l c :
  sorts sortSlice -> Sorted Z.le (sortedSet c) ->
  Sorted Z.le (sortedSet (fold_left (add sortSlice) l c)).
Proof.
  intros Hs. revert c. induction l as [|m l IH]; intros c H; simpl; [done|].
  apply IH. rewrite (proj2 (proj2 (add_fields sortSlice c m))). apply Hs.
Qed.

Lemma step_sorted sortSlice c op c' :
  sorts sortSlice -> Sorted Z.le (sortedSet c) ->
  step sortSlice c op = (c', None) -> Sorted Z.le (sortedSet c').
Proof.
  intros Hs H. destruct op as [m|name]; simpl.
  - intros HAdd. destruct (Add_cases _ _ _ _ _ HAdd) as [(_ & -> & _)|(_ & Hd)]; [done|].
    destruct (distributePartitions_frame _ _ _ Hd) as (_ & _ & _ & _ & ->).
    rewrite (proj2 (proj2 (add_fields sortSlice c m))). apply Hs.
  - intros HRem. destruct (members c !! name) as [x|] eqn:Hx.
    2:{ unfold Remove in HRem. rewrite Hx in HRem. by injection HRem as <-. }
    destruct (Remove_fields c name c' None HRem ltac:(by exists x)) as [(_ & -> & _)|(_ & Hd)].
    + by apply fold_delSlice_sorted.
    + destruct (distributePartitions_frame _ _ _ Hd) as (_ & _ & _ & _ & ->).
      by apply fold_delSlice_sorted.
Qed.

Lemma reachable_sorted sortSlice c :
  sorts sortSlice -> reachable sortSlice c -> Sorted Z.le (sortedSet c).
Proof.
  intros Hs (ms & cfg & c0 & ops & HN & Hrun).
  assert (H0 : Sorted Z.le (sortedSet c0)).
  { revert HN. unfold New. destruct (cfgHasher cfg) as [h|]; [|discriminate]. cbv zeta.
    destruct ms as [ms|].
    - destruct (distributePartitions _) as [c2 [p|]] eqn:Hd; [discriminate|].
      intros [= <-]. destruct (distributePartitions_frame _ _ _ Hd) as (_ & _ & _ & _ & ->).
      apply fold_add_sorted; [done|constructor].
    - intros [= <-]. constructor. }
  clear HN. revert c0 H0 Hrun. induction ops as [|op ops IH]; intros c0 H0; simpl.
  - by intros [= <-].
  - destruct (step sortSlice c0 op) as [c1 [p|]] eqn:Hst; [discriminate|].
    apply IH. exact (step_sorted _ _ _ _ Hs H0 Hst).
Qed.

Lemma GetMembers_map c : GetMembers c = map snd (map_to_list (members c)).
Proof.
  unfold GetMembers.
  assert (E : forall l (acc : list Member),
    fold_left (fun res (nm : string * Member) => res ++ [nm.2]) l acc = acc ++ map snd l).
  { induction l as [|nm l IH]; intros acc; simpl; [by rewrite app_nil_r|].
    by rewrite IH, <- app_assoc. }
  by rewrite E.
Qed.

Lemma fold_insert_union (l : list (string * Z)) (acc : gmap string Z) :
  NoDup l.*1 ->
  fold_left (fun res (nl : string * Z) => <[nl.1 := nl.2]> res) l acc = list_to_map l ∪ acc.
Proof.
  revert acc. induction l as [|[k v] l IH]; intros acc Hnd; simpl.
  - by rewrite map_empty_union.
  - apply NoDup_cons in Hnd as [Hk Hnd]. rewrite IH by done.
    rewrite <- insert_union_r by (by apply not_elem_of_list_to_map_1).
    by rewrite insert_union_l.
Qed.

Lemma LoadDistribution_loads c : LoadDistribution c = loads c.
Proof.
  unfold LoadDistribution. rewrite fold_insert_union by apply NoDup_fst_map_to_list.
  by rewrite list_to_map_to_list, map_union_empty.
Qed.

Lemma reachable_ABC :
  reachable zsort (new_or (blank cfgABC) (New zsort (Some [mA; mB; mC]) cfgABC)).
Proof.
  exists (Some [mA; mB; mC]), cfgABC, (new_or (blank cfgABC) (New zsort (Some [mA; mB; mC]) cfgABC)), [].
  split; [|done]. apply new_or_inr. vm_compute. exact I.
Qed.

(** At every state reached without a panic from [New] through [Add] and
    [Remove], the member map is keyed by the members' names, and every
    ring point belongs to a registered member and is the hash of one of
    that member's replica keys [name + "i"], [i < ReplicationFactor]
    ([add] inserts exactly these points, [Remove] deletes them all). *)
Theorem ring_points_registered sortSlice c :
  reachable sortSlice c ->
  (forall name m, members c !! name = Some m -> Name m = name) /\
  (forall h m, ring c !! h = Some m ->
     members c !! Name m = Some m /\
     exists i, (i < Z.to_nat (ReplicationFactor (config c)))%nat /\
       h = hasher c (replicaKey (Name m) i)).
Proof.
  intros Hr. destruct (reachable_inv sortSlice c Hr) as ([H1 H2] & _ & _).
  split; [exact H1|exact H2].
Qed.

Lemma ring_points_registered_witness :
  let c := new_or (blank cfgABC) (New zsort (Some [mA; mB; mC]) cfgABC) in
  map_Forall (fun _ m => members c !! Name m = Some m) (ring c).
Proof.
  intros c h m H. exact (proj1 (proj2 (ring_points_registered zsort c reachable_ABC) h m H)).
Defined.

(** At every reachable state the partition table only names registered
    members: [GetPartitionOwner] and [LocateKey] never return a member
    that has been removed (the last [Remove] clears the table, the others
    rebuild it from the ring). *)
Theorem owners_registered sortSlice c :
  reachable sortSlice c ->
  (forall pid m, GetPartitionOwner c pid = Some m -> members c !! Name m = Some m) /\
  (forall key m, LocateKey c key = inr (Some m) -> members c !! Name m = Some m).
Proof.
  intros Hr. destruct (reachable_inv sortSlice c Hr) as (_ & Ho & _). split.
  - intros pid m H. exact (Ho pid m H).
  - intros key m. unfold LocateKey. destruct (FindPartitionID c key) as [|pid]; [discriminate|].
    intros [= H]. exact (Ho pid m H).
Qed.

Lemma owners_registered_witness :
  let c := new_or (blank cfgABC) (New zsort (Some [mA; mB; mC]) cfgABC) in
  exists m, LocateKey c [x41] = inr (Some m) /\ members c !! Name m = Some m.
Proof.
  intros c.
  destruct (LocateKey c [x41]) as [p|[m|]] eqn:E;
    [vm_compute in E; discriminate| |vm_compute in E; discriminate].
  exists m. split; [done|].
  exact (proj2 (owners_registered zsort c reachable_ABC) [x41] m E).
Defined.

(** At a reachable state with members and a non-zero partition count,
    [LocateKey] never panics and always finds a registered owner. *)
Theorem LocateKey_total sortSlice c key :
  reachable sortSlice c -> size (members c) <> 0%nat -> partitionCount c <> 0 ->
  exists m, LocateKey c key = inr (Some m) /\ members c !! Name m = Some m.
Proof.
  intros Hr Hm Hp0. destruct (reachable_inv sortSlice c Hr) as (_ & Ho & [Hp Hfix]).
  specialize (Hfix Hm).
  destruct (distributePartitions_ok c c Hm Hp Hfix) as (avg & _ & _ & _ & Hdom & _).
  unfold LocateKey, FindPartitionID. case_decide; [done|].
  pose proof (Z.mod_pos_bound (hasher c key) (partitionCount c) ltac:(lia)).
  destruct (proj2 (Hdom (to_int (hasher c key mod partitionCount c)))) as [m Hm'].
  { eexists. split; [|reflexivity]. lia. }
  exists m. unfold GetPartitionOwner. rewrite Hm'. split; [done|]. exact (Ho _ _ Hm').
Qed.

Lemma LocateKey_total_witness :
  let c := new_or (blank cfgABC) (New zsort (Some [mA; mB; mC]) cfgABC) in
  exists m, LocateKey c [x41; x42] = inr (Some m).
Proof.
  intros c.
  assert (Hs : size (members c) = 3%nat) by (vm_compute; reflexivity).
  assert (Hp : partitionCount c = 7) by (vm_compute; reflexivity).
  destruct (LocateKey_total zsort c [x41; x42] reachable_ABC
              ltac:(rewrite Hs; discriminate) ltac:(rewrite Hp; discriminate)) as (m & H & _).
  by exists m.
Defined.

(** With a [sort.Slice] that sorts, the ring [sortedSet] is sorted at every
    reachable state ([add] re-sorts it, [delSlice] only drops points), as
    the binary search of [distributePartitions] needs. *)
Theorem sortedSet_sorted sortSlice c :
  sorts sortSlice -> reachable sortSlice c -> Sorted Z.le (sortedSet c).
Proof. apply reachable_sorted. Qed.

Lemma sortedSet_sorted_witness :
  Sorted Z.le (sortedSet (new_or (blank cfgABC) (New zsort (Some [mA; mB; mC]) cfgABC))).
Proof. exact (sortedSet_sorted zsort _ zsort_sorts reachable_ABC). Defined.

(** At a reachable state [GetMembers] lists every registered member once:
    it has no duplicates, holds exactly the registered members, and has as
    many entries as the member map. *)
Theorem GetMembers_registered sortSlice c :
  reachable sortSlice c ->
  NoDup (GetMembers c) /\
  (forall m, m ∈ GetMembers c <-> members c !! Name m = Some m) /\
  length (GetMembers c) = size (members c).
Proof.
  intros Hr. destruct (reachable_inv sortSlice c Hr) as ([Hkey _] & _ & _).
  rewrite GetMembers_map. split; [|split].
  - apply NoDup_ListNoDup. apply (NoDup_map_inv Name).
    rewrite map_map.
    replace (map (fun x => Name x.2) (map_to_list (members c)))
      with (map fst (map_to_list (members c))).
    + apply NoDup_ListNoDup. apply NoDup_fst_map_to_list.
    + apply map_ext_in. intros [n m] Hin. simpl. symmetry. apply (Hkey n m).
      apply elem_of_map_to_list, list_elem_of_In, Hin.
  - intros m. rewrite list_elem_of_In, in_map_iff. split.
    + intros ([n m'] & <- & Hin). simpl.
      apply list_elem_of_In, elem_of_map_to_list in Hin.
      by rewrite (Hkey n m' Hin).
    + intros H. exists (Name m, m). split; [done|].
      apply list_elem_of_In, elem_of_map_to_list, H.
  - by rewrite length_map, length_map_to_list.
Qed.

Lemma GetMembers_registered_witness :
  let c := new_or (blank cfgABC) (New zsort (Some [mA; mB; mC]) cfgABC) in
  NoDup (GetMembers c).
Proof. exact (proj1 (GetMembers_registered zsort _ reachable_ABC)). Defined.

(** [LoadDistribution] copies the load map entry by entry: the copy is the
    load map itself. *)
Theorem LoadDistribution_copy c : LoadDistribution c = loads c.
Proof. apply LoadDistribution_loads. Qed.

(** At a reachable state with members, [LoadDistribution] reports for a
    name the number of partitions the table gives it when that number is
    positive (as a [float64] count, which stops at [2^53]), and has no entry
    for it otherwise. *)
Theorem LoadDistribution_counts sortSlice c n :
  reachable sortSlice c -> size (members c) <> 0%nat ->
  LoadDistribution c !! n =
    if decide (owned_count n (partitions c) = 0%nat) then None
    else Some (Z.min (Z.of_nat (owned_count n (partitions c))) (2 ^ 53)).
Proof.
  intros Hr Hm. destruct (reachable_inv sortSlice c Hr) as (_ & _ & [Hp Hfix]).
  specialize (Hfix Hm).
  destruct (distributePartitions_ok c c Hm Hp Hfix) as (avg & _ & (Hl & Hn & _) & _).
  rewrite LoadDistribution_loads.
  destruct (loads c !! n) as [l|] eqn:E.
  - destruct (Hl n l E) as (Hb & _ & Hc). case_decide; [lia|]. by rewrite Hc.
  - by rewrite decide_True by (by apply Hn).
Qed.

Lemma LoadDistribution_counts_witness :
  let c := new_or (blank cfgABC) (New zsort (Some [mA; mB; mC]) cfgABC) in
  LoadDistribution c !! "A"%string =
    if decide (owned_count "A" (partitions c) = 0%nat) then None
    else Some (Z.min (Z.of_nat (owned_count "A" (partitions c))) (2 ^ 53)).
Proof.
  intros c. assert (Hs : size (members c) = 3%nat) by (vm_compute; reflexivity).
  exact (LoadDistribution_counts zsort c "A" reachable_ABC ltac:(rewrite Hs; discriminate)).
Defined.

(** ** Adding and removing a member *)

Lemma count_not_in (v : Z) l : v ∉ l -> length (filter (fun x => x = v) l) = 0%nat.
Proof.
  induction l as [|x l IH]; intros H; [done|].
  rewrite filter_cons_False by set_solver. apply IH. set_solver.
Qed.

Lemma count_NoDup (v : Z) l : NoDup l -> (length (filter (fun x => x = v) l) <= 1)%nat.
Proof.
  induction 1 as [|x l Hx Hnd IH]; [simpl; lia|].
  destruct (decide (x = v)) as [->|Hne].
  - rewrite filter_cons_True by done. simpl. rewrite count_not_in by done. lia.
  - rewrite filter_cons_False by done. exact IH.
Qed.

Lemma count_filter_le (v : Z) (Q : Z -> Prop) `{!forall x, Decision (Q x)} l :
  (length (filter (fun x => x = v) (filter Q l)) <= length (filter (fun x => x = v) l))%nat.
Proof.
  induction l as [|x l IH]; [done|].
  destruct (decide (Q x)).
  - rewrite (filter_cons_True Q) by done.
    destruct (decide (x = v)).
    + rewrite !filter_cons_True by done. simpl. lia.
    + rewrite !filter_cons_False by done. exact IH.
  - rewrite (filter_cons_False Q) by done.
    destruct (decide (x = v)).
    + rewrite (filter_cons_True (fun x => x = v)) by done. simpl. lia.
    + rewrite (filter_cons_False (fun x => x = v)) by done. exact IH.
Qed.

(** [delSlice val] removes [val] when it occurs at most once. *)
Lemma delSlice_filter_once v s :
  (length (filter (fun x => x = v) s) <= 1)%nat -> delSlice v s = filter (fun x => x <> v) s.
Proof.
  induction s as [s IH] using (induction_ltof1 _ (@length Z)).
  destruct s as [|x s]; simpl; [done|]. intros Hc.
  destruct (Z.eqb_spec x v) as [->|Hne].
  - rewrite filter_cons_True in Hc by done. simpl in Hc.
    rewrite filter_cons_False by auto.
    destruct s as [|y s]; [done|].
    assert (y <> v) by (intros ->; rewrite filter_cons_True in Hc by done; simpl in Hc; lia).
    rewrite filter_cons_False in Hc by done.
    rewrite filter_cons_True by done. f_equal. apply IH; [unfold ltof; simpl; lia|lia].
  - rewrite filter_cons_False in Hc by done.
    rewrite filter_cons_True by done. f_equal. apply IH; [unfold ltof; simpl; lia|done].
Qed.

Lemma fold_delSlice_filter hs l :
  (forall h, h ∈ hs -> (length (filter (fun x => x = h) l) <= 1)%nat) ->
  fold_left (fun ss h => delSlice h ss) hs l = filter (fun x => x ∉ hs) l.
Proof.
  revert l. induction hs as [|h hs IH]; intros l Hc; cbn [fold_left].
  - clear Hc. induction l as [|x l IHl]; [done|].
    rewrite filter_cons_True by set_solver. by rewrite <- IHl.
  - rewrite delSlice_filter_once by (apply Hc; set_solver).
    rewrite IH.
    + rewrite list_filter_filter. apply list_filter_iff. set_solver.
    + intros h' Hh'. etransitivity; [apply count_filter_le|]. apply Hc. set_solver.
Qed.

Lemma filter_not_in_all (hs l : list Z) :
  (forall x, x ∈ l -> x ∉ hs) -> filter (fun x => x ∉ hs) l = l.
Proof.
  induction l as [|x l IH]; intros H; [done|].
  rewrite filter_cons_True by set_solver. rewrite IH; [done|set_solver].
Qed.

Lemma filter_not_in_none (hs l : list Z) :
  (forall x, x ∈ l -> x ∈ hs) -> filter (fun x => x ∉ hs) l = [].
Proof.
  induction l as [|x l IH]; intros H; [done|].
  rewrite filter_cons_False by set_solver. apply IH. set_solver.
Qed.

Lemma distributePartitions_set_table c p l :
  distributePartitions c = (c, None) -> distributePartitions (set_table c p l) = (c, None).
Proof.
  intros H. destruct (distributePartitions_fields c c H) as (parts & lds & Hd & Hc).
  unfold distributePartitions. rewrite distributeFrom_set_table.
  change (partitionIDs (set_table c p l)) with (partitionIDs c). rewrite Hd.
  rewrite set_table_set_table. congruence.
Qed.

Lemma distributePartitions_set_table_inr c p l c' :
  distributePartitions (set_table c p l) = (c', None) -> distributePartitions c = (c', None).
Proof.
  unfold distributePartitions. rewrite distributeFrom_set_table.
  change (partitionIDs (set_table c p l)) with (partitionIDs c).
  destruct (distributeFrom c (partitionIDs c) ∅ ∅) as [|[parts lds]]; [done|].
  intros [= <-]. by rewrite set_table_set_table.
Qed.

Lemma add_set_table sortSlice c p l m :
  add sortSlice (set_table c p l) m = set_table (add sortSlice c m) p l.
Proof. destruct c. unfold add. simpl. by destruct (fold_left _ _ _). Qed.

(** Removing a member just added restores the instance exactly, when the
    new member's replica hashes are fresh: pairwise distinct, not on the
    ring yet and not among the sorted points (then each [delSlice] meets its
    point once and drops it, and the ring deletions undo the insertions). *)
Theorem Add_Remove_roundtrip sortSlice c m c1 :
  sorts sortSlice -> reachable sortSlice c -> size (members c) <> 0%nat ->
  members c !! Name m = None ->
  let hs := map (fun i => hasher c (replicaKey (Name m) i)) (replicas c) in
  NoDup hs -> Forall (fun h => (h ∉ sortedSet c) /\ ring c !! h = None) hs ->
  Add sortSlice c m = (c1, None) -> Remove c1 (Name m) = (c, None).
Proof.
  intros Hs Hr Hm Hn hs Hnd2 Hfresh HAdd.
  assert (Hdisj : forall x, x ∈ sortedSet c -> x ∉ hs).
  { intros x Hx Hxh. rewrite Forall_forall in Hfresh.
    by apply (Hfresh x Hxh). }
  assert (Hfree : Forall (fun h => ring c !! h = None) hs).
  { eapply Forall_impl; [exact Hfresh|]. by intros h [_ ?]. }
  destruct (reachable_inv _ _ Hr) as (_ & _ & [_ Hfix]). specialize (Hfix Hm).
  pose proof (reachable_sorted _ _ Hs Hr) as Hsorted.
  unfold Add in HAdd. rewrite Hn in HAdd.
  destruct (distributePartitions_fields _ _ HAdd) as (parts & lds & _ & Hc1).
  destruct (add_frame sortSlice c m) as (Hma & Hpa & _ & _ & Hca).
  destruct (add_fields sortSlice c m) as (Hha & Hra & Hsa).
  assert (Hm1 : members c1 = <[Name m := m]> (members c)) by (rewrite Hc1; exact Hma).
  assert (Hh1 : hasher c1 = hasher c) by (rewrite Hc1; exact Hha).
  assert (Hcfg1 : config c1 = config c) by (rewrite Hc1; exact Hca).
  assert (Hpc1 : partitionCount c1 = partitionCount c) by (rewrite Hc1; exact Hpa).
  assert (Hss1 : sortedSet c1 = sortSlice (sortedSet c ++ hs)) by (rewrite Hc1; exact Hsa).
  assert (Hrg1 : ring c1 = fold_left (fun rg h => <[h := m]> rg) hs (ring c))
    by (rewrite Hc1; exact Hra).
  assert (Hl1 : loads c1 = lds) by (rewrite Hc1; done).
  assert (Hp1 : partitions c1 = parts) by (rewrite Hc1; done).
  assert (Ehs : map (fun i => hasher c1 (replicaKey (Name m) i)) (replicas c1) = hs)
    by (unfold replicas; rewrite Hh1, Hcfg1; done).
  destruct (Remove c1 (Name m)) as [c' r] eqn:HR.
  destruct (Remove_fields c1 (Name m) c' r HR) as [(Hs0 & _)|(_ & Hd)];
    [by rewrite Hm1, lookup_insert_eq| |].
  { cbn [members set_ring_members] in Hs0. rewrite Hm1, delete_insert_id in Hs0 by done.
    done. }
  rewrite Ehs in Hd.
  assert (Ess : fold_left (fun ss h => delSlice h ss) hs (sortedSet c1) = sortedSet c).
  { rewrite Hss1. destruct (Hs (sortedSet c ++ hs)) as [Hperm Hsrt].
    rewrite fold_delSlice_filter.
    2:{ intros h Hh.
        assert (E : filter (fun x => x = h) (sortSlice (sortedSet c ++ hs)) ≡ₚ
                    filter (fun x => x = h) (sortedSet c ++ hs)) by (by rewrite Hperm).
        rewrite (Permutation_length E), filter_app, length_app.
        rewrite count_not_in by (intros Hin; exact (Hdisj h Hin Hh)).
        pose proof (count_NoDup h hs Hnd2). lia. }
    apply (Sorted_unique Z.le).
    - eapply Sorted_sublist; [apply sublist_filter|exact Hsrt].
    - exact Hsorted.
    - rewrite Hperm, filter_app, filter_not_in_all by done.
      rewrite filter_not_in_none by done. by rewrite app_nil_r. }
  assert (Erg : fold_left (fun rg h => delete h rg) hs (ring c1) = ring c).
  { apply map_eq. intros k. rewrite Hrg1, fold_delete_lookup, fold_insert_lookup.
    case_decide as Hk; [|done]. rewrite Forall_forall in Hfree. symmetry. by apply Hfree. }
  assert (Ems : delete (Name m) (members c1) = members c)
    by (rewrite Hm1; by apply delete_insert_id).
  rewrite Ess, Erg, Ems in Hd.
  assert (Ec : set_ring_members c1 (sortedSet c) (ring c) (members c) = set_table c parts lds).
  { unfold set_ring_members, set_table. by rewrite Hcfg1, Hh1, Hpc1, Hl1, Hp1. }
  rewrite Ec, distributePartitions_set_table in Hd by exact Hfix.
  congruence.
Qed.

Lemma Add_Remove_roundtrip_witness :
  let c := new_or (blank cfgABC) (New zsort (Some [mA; mB; mC]) cfgABC) in
  Remove (Add zsort c mD).1 "D" = (c, None).
Proof.
  intros c. apply (Add_Remove_roundtrip zsort c mD).
  - exact zsort_sorts.
  - exact reachable_ABC.
  - assert (Hs : size (members c) = 3%nat) by (vm_compute; reflexivity).
    rewrite Hs. discriminate.
  - vm_compute. reflexivity.
  - apply (bool_decide_unpack _). vm_compute. exact I.
  - apply Forall_and. split.
    + apply (bool_decide_unpack _). vm_compute. exact I.
    + vm_compute. repeat constructor.
  - apply pair_no_panic. vm_compute. reflexivity.
Defined.

(** ** Building up an instance *)

Lemma run_adds sortSlice l B p0 l0 c :
  NoDup (map Name l) -> (forall m, In m l -> members B !! Name m = None) ->
  run sortSlice (set_table B p0 l0) (map OpAdd l) = (c, None) ->
  (l = [] /\ c = set_table B p0 l0) \/
  distributePartitions (fold_left (add sortSlice) l B) = (c, None).
Proof.
  revert B p0 l0. induction l as [|m l IH]; intros B p0 l0 Hnd Hfresh Hrun;
    cbn [run map step] in Hrun.
  - left. injection Hrun as <-. done.
  - right. unfold Add in Hrun.
    assert (Hn : members (set_table B p0 l0) !! Name m = None) by (apply (Hfresh m); by left).
    rewrite Hn, add_set_table in Hrun.
    destruct (distributePartitions (set_table (add sortSlice B m) p0 l0)) as [c1 [e|]] eqn:Hd;
      [discriminate|].
    apply distributePartitions_set_table_inr in Hd.
    destruct (distributePartitions_fields _ _ Hd) as (parts & lds & _ & Hc1).
    rewrite Hc1 in Hrun.
    apply NoDup_cons in Hnd as [Hm Hnd'].
    assert (Hfresh' : forall m', In m' l -> members (add sortSlice B m) !! Name m' = None).
    { intros m' Hin. rewrite (proj1 (add_frame sortSlice B m)).
      rewrite lookup_insert_ne.
      - apply Hfresh. by right.
      - intros E. apply Hm. rewrite E. apply list_elem_of_In, in_map, Hin. }
    destruct (IH (add sortSlice B m) parts lds Hnd' Hfresh' Hrun) as [[-> Hc]|Hd'].
    + simpl. rewrite Hc, <- Hc1. exact Hd.
    + exact Hd'.
Qed.

(** Building an instance with [New(nil, cfg)] and then calling [Add] for
    each member of a non-empty list of distinct names gives, when no call
    panics, the instance [New(members, cfg)] builds directly. *)
Theorem New_incremental sortSlice ms cfg c0 c :
  NoDup (map Name ms) -> ms <> [] -> New sortSlice None cfg = inr c0 ->
  run sortSlice c0 (map OpAdd ms) = (c, None) -> New sortSlice (Some ms) cfg = inr c.
Proof.
  intros Hnd Hne HN Hrun. revert HN. unfold New.
  destruct (cfgHasher cfg) as [h|]; [|discriminate]. cbv zeta.
  set (base := mkConsistent cfg h [] (to_uint64 (PartitionCount cfg)) ∅ ∅ ∅ ∅).
  intros [= <-].
  destruct (run_adds sortSlice ms base ∅ ∅ c Hnd) as [[-> _]|Hd]; [|exact Hrun|done|].
  - intros m _. apply lookup_empty.
  - change (match distributePartitions (fold_left (add sortSlice) ms base) with
            | (c2, None) => inr c2 | (_, Some p) => inl p end = inr c).
    by rewrite Hd.
Qed.

Lemma New_incremental_witness :
  let c0 := new_or (blank cfgABC) (New zsort None cfgABC) in
  New zsort (Some [mA; mB; mC]) cfgABC = inr (run zsort c0 (map OpAdd [mA; mB; mC])).1.
Proof.
  intros c0. apply (New_incremental zsort [mA; mB; mC] cfgABC c0).
  - apply (bool_decide_unpack _). vm_compute. exact I.
  - discriminate.
  - apply new_or_inr. vm_compute. exact I.
  - apply pair_no_panic. vm_compute. reflexivity.
Defined.
